(** * primer-primitives: the variable-resolution and validation engine

    A shallow embedding of the replacement-ledger validation of
    [script/build.ts] and of the collections it queries
    ([script/lib/variable-collection], [script/lib/mode-collection]),
    followed by the properties the specification states about them. *)

From Stdlib Require Import String Ascii List Bool Arith Lia Permutation.
Import ListNotations.

Local Open Scope string_scope.
Local Open Scope list_scope.

Set Warnings "-register-all".

(** * Part I: definitions *)

(** ** Values *)

(** A parsed JSON value, as [JSON.parse] hands it to the build script.
    Numbers are never inspected by the code and are kept as their text.
    An object is the list of its own entries in [Object.entries] order. *)
Inductive json : Type :=
| JNull
| JBool (b : bool)
| JNumber (text : string)
| JString (s : string)
| JArray (items : list json)
| JObject (entries : list (string * json)).

(** A literal token value: string, number, or array kept as one opaque leaf. *)
Inductive literal : Type :=
| LString (s : string)
| LNumber (text : string)
| LArray (items : list literal).

(** The runtime theme context a deferred function is eventually applied to.
    The engine never applies such a function; it only carries it. *)
Definition themeContext : Type := string -> option literal.

(** A resolved value: a scalar or a deferred function of the theme context. *)
Inductive resolved : Type :=
| RLiteral (v : literal)
| RDeferred (f : themeContext -> literal).

(** A raw token definition: the tagged variant of the design notes. *)
Inductive token : Type :=
| Literal (v : literal)
| Reference (name : string)
| DeferredFn (f : themeContext -> literal)
| Nested (mapping : list (string * token)).

(** Induction on a token with the nested mappings as hypotheses. *)
Section TokenInduction.
Variable P : token -> Prop.
Hypothesis Hliteral : forall v, P (Literal v).
Hypothesis Hreference : forall reference, P (Reference reference).
Hypothesis Hdeferred : forall f, P (DeferredFn f).
Hypothesis Hnested :
  forall mapping, Forall (fun entry => P (snd entry)) mapping -> P (Nested mapping).

Fixpoint token_nested_ind (value : token) : P value :=
  match value with
  | Literal v => Hliteral v
  | Reference reference => Hreference reference
  | DeferredFn f => Hdeferred f
  | Nested mapping =>
      Hnested mapping
        ((fix all (entries : list (string * token))
              : Forall (fun entry => P (snd entry)) entries :=
            match entries with
            | [] => Forall_nil _
            | (key, child) :: rest =>
                Forall_cons (key, child) (token_nested_ind child) (all rest)
            end) mapping)
  end.
End TokenInduction.

(** A nested object with resolved leaves: what [tree()] exports. *)
Inductive object : Type :=
| Leaf (v : resolved)
| Object (fields : list (string * object)).

(** ** Strings *)

(** JavaScript's [s.split(sep)] for a one-character separator: the result is
    never empty, and the empty string splits into one empty segment. *)
Fixpoint split (sep : ascii) (s : string) : list string :=
  match s with
  | EmptyString => [EmptyString]
  | String c rest =>
      if Ascii.eqb c sep then EmptyString :: split sep rest
      else match split sep rest with
           | [] => [String c EmptyString]
           | first :: others => String c first :: others
           end
  end.

(** [occurs c s]: the character [c] occurs in [s]. *)
Fixpoint occurs (c : ascii) (s : string) : bool :=
  match s with
  | EmptyString => false
  | String d rest => Ascii.eqb d c || occurs c rest
  end.

Definition dot : ascii := "."%char.
Definition hyphen : ascii := "-"%char.

(** ** Name Resolver *)

(** Modelled from the spec: [getFullName] of [script/lib/variable-collection]
    is imported by [build.ts] but its file is not part of the sources.
    Section 4.1: the output joins the prefix and the first path segment with
    a hyphen; subsequent segments are appended with a dot; nothing else is
    done to the strings. The path is non-empty by contract; on the empty
    path this model returns the prefix alone. *)
Definition getFullName (prefix : string) (path : list string) : string :=
  match path with
  | [] => prefix
  | first :: rest =>
      fold_left (fun name segment => (name ++ "." ++ segment)%string) rest
                (prefix ++ "-" ++ first)%string
  end.

(** [appendEach sep segments]: every segment, each prepended with [sep]. *)
Fixpoint appendEach (sep : string) (segments : list string) : string :=
  match segments with
  | [] => ""
  | segment :: rest => sep ++ segment ++ appendEach sep rest
  end.

Definition dotFree (segment : string) : bool := negb (occurs dot segment).

(** Well-formed input of the Name Resolver: the prefix carries no hyphen, the
    path is non-empty and no segment carries a dot. *)
Definition wellFormedName (prefix : string) (path : list string) : bool :=
  negb (occurs hyphen prefix)
  && negb (Nat.eqb (length path) 0)
  && forallb dotFree path.

(** [opensWith c t]: [t] is empty or starts with the character [c]. *)
Definition opensWith (c : ascii) (t : string) : Prop :=
  t = EmptyString \/ exists u, t = String c u.

(** [distinct l]: no string occurs twice in [l]. *)
Fixpoint distinct (l : list string) : bool :=
  match l with
  | [] => true
  | x :: rest => negb (existsb (String.eqb x) rest) && distinct rest
  end.

(** ** Ordered maps

    A JavaScript [Map] (and the own keys of an object literal): insertion
    ordered, a key written twice keeps its first position and its last
    value. *)
Module OrderedMap.

Section Defs.
Context {V : Type}.

Fixpoint get (key : string) (m : list (string * V)) : option V :=
  match m with
  | [] => None
  | (k, v) :: rest => if String.eqb k key then Some v else get key rest
  end.

Fixpoint set (key : string) (v : V) (m : list (string * V)) : list (string * V) :=
  match m with
  | [] => [(key, v)]
  | (k, w) :: rest =>
      if String.eqb k key then (k, v) :: rest else (k, w) :: set key v rest
  end.

Definition keys (m : list (string * V)) : list string := map fst m.
End Defs.

End OrderedMap.

(** ** Variable Collection *)

Module VariableCollection.

(** One resolved token; [build.ts] reads [variable.name] and
    [variable.value]. *)
Record variable : Type := mkVariable {
  name : string;
  value : resolved;
  path : list string
}.

(** One mode's flattened variable set: [new VariableCollection(mode, prefix,
    null)] in [build.ts], which reads the mode back as [vars.name]; [vars] is
    the ordered map from name to variable that iteration goes through. *)
Record t : Type := mk {
  mode : string;
  prefix : string;
  vars : list (string * variable)
}.

(** Modelled from the spec: the constructor of [VariableCollection]
    (section 3: constructed empty with mode and prefix). *)
Definition empty (mode prefix : string) : t := mk mode prefix [].

(** Modelled from the spec: [getByName] (section 4.2): lookup of a variable
    by its canonical name, absent when the name was never inserted. *)
Definition getByName (vc : t) (fullName : string) : option variable :=
  OrderedMap.get fullName (vars vc).

(** The names a collection exposes, in insertion order. *)
Definition names (vc : t) : list string := OrderedMap.keys (vars vc).

(** The error of section 7 a resolution can end with: the offending
    reference and the mode. *)
Inductive error : Type :=
| UndefinedReference (name mode : string).

(** Modelled from the spec: insertion of a Variable at a leaf (section 4.2):
    the canonical name comes from the Name Resolver and the accumulated key
    path; a leaf at a name already present overwrites it. *)
Definition insert (path : list string) (v : resolved) (vc : t) : t :=
  let fullName := getFullName (prefix vc) path in
  mk (mode vc) (prefix vc)
     (OrderedMap.set fullName (mkVariable fullName v path) (vars vc)).

(** Modelled from the spec: the value resolution rule (section 4.2). A
    reference is a dotted name without the prefix; it is looked up, prefixed,
    among the variables already inserted, and the value found is copied (a
    deferred function is carried through unevaluated). A name not yet
    present is an undefined reference. *)
Definition lookupReference (vc : t) (reference : string) : option variable :=
  getByName vc (getFullName (prefix vc) (split dot reference)).

(** Modelled from the spec: what the walk does at a leaf (section 4.2):
    resolve the value and insert the Variable. A nested mapping is no leaf
    and is never handed to this function. *)
Definition addLeaf (path : list string) (leaf : token) (vc : t) : error + t :=
  match leaf with
  | Literal v => inr (insert path (RLiteral v) vc)
  | DeferredFn f => inr (insert path (RDeferred f) vc)
  | Reference reference =>
      match lookupReference vc reference with
      | Some referenced => inr (insert path (value referenced) vc)
      | None => inl (UndefinedReference reference (mode vc))
      end
  | Nested _ => inr vc
  end.

(** Modelled from the spec: the recursive walk of [addFromObject]
    (section 4.2). A nested mapping recurses with the path extended by the
    current key; any other value is a leaf. The walk is a single pass in
    declaration order and stops at the first undefined reference. *)
Fixpoint addValue (path : list string) (value : token) (vc : t) {struct value}
    : error + t :=
  match value with
  | Nested mapping =>
      (fix walk (entries : list (string * token)) (vc : t) {struct entries}
           : error + t :=
         match entries with
         | [] => inr vc
         | (key, child) :: rest =>
             match addValue (path ++ [key]) child vc with
             | inl e => inl e
             | inr vc' => walk rest vc'
             end
         end) mapping vc
  | leaf => addLeaf path leaf vc
  end.

Definition addFromObject (tree : list (string * token)) (vc : t) : error + t :=
  addValue [] (Nested tree) vc.

(** The fields of the object found under [key], none when [key] holds no
    object. *)
Definition fieldsAt (key : string) (fields : list (string * object))
    : list (string * object) :=
  match OrderedMap.get key fields with
  | Some (Object inner) => inner
  | _ => []
  end.

(** Setting a value at a path of a nested object, creating the objects on
    the way. *)
Fixpoint setPath (path : list string) (v : resolved) (fields : list (string * object))
    : list (string * object) :=
  match path with
  | [] => fields
  | key :: rest =>
      match rest with
      | [] => OrderedMap.set key (Leaf v) fields
      | _ :: _ =>
          OrderedMap.set key (Object (setPath rest v (fieldsAt key fields))) fields
      end
  end.

(** Modelled from the spec: [tree()] (section 4.2): the nested object is
    rebuilt from the flat map, setting every variable's value at its stored
    path, in iteration order. *)
Definition tree (vc : t) : list (string * object) :=
  fold_left (fun root entry => setPath (path (snd entry)) (value (snd entry)) root)
            (vars vc) [].

(** *** Vocabulary of the statements about the walk *)

(** The leaves of a value in declaration order, each with its key path
    relative to the value. *)
Fixpoint leavesOf (value : token) : list (list string * token) :=
  match value with
  | Nested mapping =>
      (fix under (entries : list (string * token)) : list (list string * token) :=
         match entries with
         | [] => []
         | (key, child) :: rest =>
             map (fun l => (key :: fst l, snd l)) (leavesOf child) ++ under rest
         end) mapping
  | leaf => [([], leaf)]
  end.

Definition leaves (tree : list (string * token)) : list (list string * token) :=
  flat_map
    (fun entry => map (fun l => (fst entry :: fst l, snd l)) (leavesOf (snd entry)))
    tree.

(** Inserting a list of leaves one after the other, below the path [base],
    up to the first undefined reference. *)
Fixpoint addLeaves (base : list string) (ls : list (list string * token)) (vc : t)
    : error + t :=
  match ls with
  | [] => inr vc
  | l :: rest =>
      match addLeaf (base ++ fst l) (snd l) vc with
      | inl e => inl e
      | inr vc' => addLeaves base rest vc'
      end
  end.

(** The canonical names of a list of leaves. *)
Definition leafNames (prefix : string) (ls : list (list string * token)) : list string :=
  map (fun l => getFullName prefix (fst l)) ls.

(** A well-formed token tree: at every level the keys are distinct and free
    of dots, and a nested mapping is not empty. *)
Fixpoint wellFormedValue (value : token) : bool :=
  match value with
  | Nested mapping =>
      negb (Nat.eqb (length mapping) 0)
      && distinct (map fst mapping)
      && forallb dotFree (map fst mapping)
      && (fix children (entries : list (string * token)) : bool :=
            match entries with
            | [] => true
            | (_, child) :: rest => wellFormedValue child && children rest
            end) mapping
  | _ => true
  end.

Definition wellFormedTree (tree : list (string * token)) : bool :=
  distinct (map fst tree)
  && forallb dotFree (map fst tree)
  && forallb (fun entry => wellFormedValue (snd entry)) tree.

(** [referencesDeclared prefix seen ls]: every reference among the leaves
    [ls] names a variable of [seen] or a leaf declared before it. *)
Fixpoint referencesDeclared
    (prefix : string) (seen : list string) (ls : list (list string * token)) : bool :=
  match ls with
  | [] => true
  | l :: rest =>
      match snd l with
      | Reference reference =>
          existsb (String.eqb (getFullName prefix (split dot reference))) seen
      | _ => true
      end
      && referencesDeclared prefix (getFullName prefix (fst l) :: seen) rest
  end.

(** [resolvesTo vc value o]: the object [o] has the shape of [value], with
    the same keys in the same order and the same leaves, a reference being
    replaced by the value of the variable it names in [vc]. *)
Inductive resolvesTo (vc : t) : token -> object -> Prop :=
| resolves_literal v : resolvesTo vc (Literal v) (Leaf (RLiteral v))
| resolves_deferred f : resolvesTo vc (DeferredFn f) (Leaf (RDeferred f))
| resolves_reference reference referenced :
    lookupReference vc reference = Some referenced ->
    resolvesTo vc (Reference reference) (Leaf (value referenced))
| resolves_nested mapping fields :
    Forall2
      (fun entry field =>
         fst entry = fst field /\ resolvesTo vc (snd entry) (snd field))
      mapping fields ->
    resolvesTo vc (Nested mapping) (Object fields).

(** The value a leaf stands for once [vc] holds what it refers to. *)
Definition resolvedLeaf (vc : t) (leaf : token) : resolved :=
  match leaf with
  | Literal v => RLiteral v
  | DeferredFn f => RDeferred f
  | Reference reference =>
      match lookupReference vc reference with
      | Some referenced => value referenced
      | None => RLiteral (LString "")
      end
  | Nested _ => RLiteral (LString "")
  end.

(** The object a value stands for once [vc] holds what it refers to. *)
Fixpoint resolvedValue (vc : t) (value : token) : object :=
  match value with
  | Nested mapping =>
      Object
        ((fix fields (entries : list (string * token)) : list (string * object) :=
            match entries with
            | [] => []
            | (key, child) :: rest => (key, resolvedValue vc child) :: fields rest
            end) mapping)
  | leaf => Leaf (resolvedLeaf vc leaf)
  end.

Definition resolvedTree (vc : t) (tree : list (string * token))
    : list (string * object) :=
  map (fun entry => (fst entry, resolvedValue vc (snd entry))) tree.

(** Setting a list of values at their paths, one after the other. *)
Definition setPaths (ls : list (list string * resolved)) (root : list (string * object))
    : list (string * object) :=
  fold_left (fun root l => setPath (fst l) (snd l) root) ls root.

(** A leaf, or a value at a path, seen from one key above. *)
Definition under {A : Type} (key : string) (l : list string * A) : list string * A :=
  (key :: fst l, snd l).

(** A leaf with its resolved value. *)
Definition resolvedAt (vc : t) (l : list string * token) : list string * resolved :=
  (fst l, resolvedLeaf vc (snd l)).

(** [rebuilds vc value]: the leaves below a key of a well-formed tree, set at
    their paths, add that key with the object the subtree stands for. *)
Definition rebuilds (vc : t) (value : token) : Prop :=
  wellFormedValue value = true ->
  forall key root,
    ~ In key (OrderedMap.keys root) ->
    setPaths (map (under key) (map (resolvedAt vc) (leavesOf value))) root
    = root ++ [(key, resolvedValue vc value)].

(** The entry of the flat map a leaf ends as. *)
Definition entryOf (vc : t) (l : list string * token) : string * variable :=
  let fullName := getFullName (prefix vc) (fst l) in
  (fullName, mkVariable fullName (resolvedLeaf vc (snd l)) (fst l)).

End VariableCollection.

(** ** Mode Collection *)

Module ModeCollection.

(** One token type's set of modes; [modes] is the [Map] from mode name to
    Variable Collection that [build.ts] reads through [collection.modes]. *)
Record t : Type := mk {
  type : string;
  prefix : string;
  modes : list (string * VariableCollection.t)
}.

(** The error of section 7 a validation reports: the offending mode and the
    variable it lacks. *)
Inductive error : Type :=
| ModeParityViolation (mode variable : string).

Definition error_eq_dec (x y : error) : {x = y} + {x <> y}.
Proof. decide equality; apply string_dec. Defined.

Record validation : Type := mkValidation {
  isValid : bool;
  errors : list error
}.

(** The names of [other] that [vars] lacks: one side of the symmetric
    difference of the pair. *)
Definition missingFrom (vars other : VariableCollection.t) : list string :=
  filter
    (fun variable =>
       match VariableCollection.getByName vars variable with
       | Some _ => false
       | None => true
       end)
    (VariableCollection.names other).

(** Modelled from the spec: [validate()] (sections 4.3 and 7). For every
    pair of modes the difference of their variable names is computed, both
    ways round; every variable of a difference is one error, naming the mode
    that lacks it, and an error is reported once per (mode, variable) pair.
    Nothing stops at the first error, and the result is a value. *)
Definition validate (collection : t) : validation :=
  let found :=
    flat_map
      (fun entry =>
         flat_map
           (fun other =>
              map (ModeParityViolation (fst entry))
                  (missingFrom (snd entry) (snd other)))
           (modes collection))
      (modes collection) in
  let errors := nodup error_eq_dec found in
  mkValidation (Nat.eqb (length errors) 0) errors.

(** Vocabulary: [lacks collection mode variable]: the mode is one of the
    collection's and misses a variable some mode of the collection has. *)
Definition lacks (collection : t) (mode variable : string) : Prop :=
  exists vars,
    In (mode, vars) (modes collection)
    /\ ~ In variable (VariableCollection.names vars)
    /\ exists mode' vars',
         In (mode', vars') (modes collection)
         /\ In variable (VariableCollection.names vars').

(** Vocabulary: all modes expose the same set of variable names. *)
Definition sameNames (collection : t) : Prop :=
  forall mode vars mode' vars',
    In (mode, vars) (modes collection) ->
    In (mode', vars') (modes collection) ->
    forall variable,
      In variable (VariableCollection.names vars)
      <-> In variable (VariableCollection.names vars').

(** Vocabulary: what of a collection does not depend on the values. *)
Definition namesByMode (collection : t) : list (string * list string) :=
  map (fun entry => (fst entry, VariableCollection.names (snd entry)))
      (modes collection).

End ModeCollection.

(** ** The build script: replacement-ledger validation *)

Module Build.

(** The error messages [build.ts] pushes, one constructor per template, with
    the values interpolated into it (the chalk markup is presentation). *)
Inductive message : Type :=
| CannotDeprecateUndefined (variable inputFile : string)
| RemovedStillDefined (variable inputFile : string)
| InvalidReplacement (original : string) (replacementVar : json) (inputFile : string)
| UndefinedReplacement (original replacementVar inputFile : string)
| DeprecatedReplacement (original replacementVar inputFile : string).

(** [existsInCollection]: the variable name uses dot notation. *)
Definition existsInCollection (collection : ModeCollection.t) (name : string) : bool :=
  let varName := getFullName (ModeCollection.prefix collection) (split dot name) in
  existsb
    (fun mode =>
       match VariableCollection.getByName mode varName with
       | Some _ => true
       | None => false
       end)
    (map snd (ModeCollection.modes collection)).

(** [validateDeprecatedVar] *)
Definition validateDeprecatedVar
    (variable : string) (collection : ModeCollection.t) (inputFile : string)
    : list message :=
  let errors := [] in
  let errors :=
    if negb (existsInCollection collection variable)
    then errors ++ [CannotDeprecateUndefined variable inputFile]
    else errors in
  errors.

(** [validateRemovedVar] *)
Definition validateRemovedVar
    (variable : string) (collection : ModeCollection.t) (inputFile : string)
    : list message :=
  let errors := [] in
  let errors :=
    if existsInCollection collection variable
    then errors ++ [RemovedStillDefined variable inputFile]
    else errors in
  errors.

(** [forEachReplacementVar]: the callback [fn] works on the caller's state
    (the [errors] array it closes over), threaded here explicitly. *)
Definition forEachReplacementVar {S : Type}
    (replacement : json) (fn : json -> S -> S) (s : S) : S :=
  match replacement with
  | JNull => s
  | JArray items => fold_left (fun s replacementVar => fn replacementVar s) items s
  | _ => fn replacement s
  end.

(** The replacement ledger: the entries of the parsed input object. *)
Definition replacementMap : Type := list (string * json).

(** The arrow function [writeReplacements] passes to
    [forEachReplacementVar]; every [push] is followed by [return]. *)
Definition checkReplacementVar
    (ledger : replacementMap) (collection : ModeCollection.t) (inputFile : string)
    (original : string) (replacementVar : json) (errors : list message)
    : list message :=
  match replacementVar with
  | JString s =>
      if negb (existsInCollection collection s)
      then errors ++ [UndefinedReplacement original s inputFile]
      else if existsb (String.eqb s) (OrderedMap.keys ledger)
      then errors ++ [DeprecatedReplacement original s inputFile]
      else errors
  | _ => errors ++ [InvalidReplacement original replacementVar inputFile]
  end.

(** The validation loop of [writeReplacements] (the [for ... of
    Object.entries(replacementMap)]), returning the [errors] array. *)
Definition validations
    (validateVar : string -> ModeCollection.t -> string -> list message)
    (ledger : replacementMap) (collection : ModeCollection.t) (inputFile : string)
    : list message :=
  fold_left
    (fun errors entry =>
       let '(original, replacement) := entry in
       let errors := errors ++ validateVar original collection inputFile in
       forEachReplacementVar replacement
         (checkReplacementVar ledger collection inputFile original) errors)
    ledger [].

(** What [inputFile] holds: nothing, a text that makes the [try] block throw
    before the loop ([JSON.parse] on malformed text), or a document, given
    as its [Object.entries]. *)
Inductive input : Type :=
| Missing
| Malformed (parseError : string)
| Parsed (ledger : replacementMap).

(** What the process logs before it exits. *)
Inductive logged : Type :=
| Violations (errors : list message)
| ParseFailure (text : string).

(** How a call of [writeReplacements] ends. *)
Inductive outcome : Type :=
| Returned
| Wrote (dir file : string) (content : replacementMap)
| Exited (status : nat) (log : logged).

(** [writeReplacements]: [inputFile] stands for the joined path
    [path.join(dataDir, collection.type, inputFilename)], and the file system
    is replaced by the [input] found there. A written file is
    [<collection.type>.json] in [outputDir], holding the ledger. *)
Definition writeReplacements
    (inputFile outputDir : string) (collection : ModeCollection.t)
    (validateVar : string -> ModeCollection.t -> string -> list message)
    (file : input) : outcome :=
  match file with
  | Missing => Returned
  | Malformed parseError => Exited 1 (ParseFailure parseError)
  | Parsed ledger =>
      let errors := validations validateVar ledger collection inputFile in
      if Nat.eqb (length errors) 0
      then Wrote outputDir (ModeCollection.type collection ++ ".json")%string ledger
      else Exited 1 (Violations errors)
  end.

End Build.

(** ** Vocabulary of the statements *)

Module Ledger.
Import Build.

(** The replacement targets of an entry: null has none, an array has its
    elements, any other value is its own single target. *)
Definition replacementVars (replacement : json) : list json :=
  match replacement with
  | JNull => []
  | JArray items => items
  | _ => [replacement]
  end.

(** What one entry of the ledger contributes to the list of violations. *)
Definition entryErrors
    (validateVar : string -> ModeCollection.t -> string -> list message)
    (ledger : replacementMap) (collection : ModeCollection.t) (inputFile : string)
    (entry : string * json) : list message :=
  validateVar (fst entry) collection inputFile
  ++ flat_map
       (fun replacementVar =>
          checkReplacementVar ledger collection inputFile (fst entry) replacementVar [])
       (replacementVars (snd entry)).

(** The error classes of section 7, by template. *)
Definition isStaleDeprecationOf (original : string) (e : message) : bool :=
  match e with
  | CannotDeprecateUndefined variable _ => String.eqb variable original
  | _ => false
  end.

Definition isInvalidRemovalOf (original : string) (e : message) : bool :=
  match e with
  | RemovedStillDefined variable _ => String.eqb variable original
  | _ => false
  end.

Definition isReplacementError (e : message) : bool :=
  match e with
  | InvalidReplacement _ _ _ | UndefinedReplacement _ _ _
  | DeprecatedReplacement _ _ _ => true
  | _ => false
  end.

(** The two validators [writeModeOutput] passes to [writeReplacements]. *)
Definition isLedgerValidator
    (validateVar : string -> ModeCollection.t -> string -> list message) : Prop :=
  validateVar = validateDeprecatedVar \/ validateVar = validateRemovedVar.

End Ledger.

(** ** The build script: skipping, collecting and emitting *)

Module Script.

Definition comma : ascii := ","%char.
Definition slash : ascii := "/"%char.


(** [interface Skip]; the fields come from the destructuring
    [const [type, name] = skip.split('/')], and a position the split does
    not reach is [undefined]. *)
Record Skip : Type := mkSkip {
  type : option string;
  name : option string
}.

(** [SKIP]: [env] is [process.env['PRIMER_SKIP']], absent when unset; the
    empty string is falsy and falls to [''] as well. *)
Definition SKIP (env : option string) : list Skip :=
  map
    (fun skip =>
       let parts := split slash skip in
       mkSkip (nth_error parts 0) (nth_error parts 1))
    (split comma (match env with Some text => text | None => "" end)).

(** [toSkip] of [build]: the names of the skips of one type. *)
Definition toSkip (env : option string) (modeType : string) : list (option string) :=
  map name
    (filter
       (fun skip =>
          match type skip with
          | Some t => String.eqb t modeType
          | None => false
          end)
       (SKIP env)).

(** [toSkip.includes(mode)]: strict equality with a string. *)
Definition includes (names : list (option string)) (mode : string) : bool :=
  existsb
    (fun n => match n with Some n => String.eqb n mode | None => false end)
    names.

(** [getModeCollectionForType]. The file system is replaced by what it
    holds: the text of the prefix file and the default export of [index.ts],
    each absent when the file does not exist. The operations of the two
    collection classes, whose files are not part of the sources, are taken
    as they are called: [trim] is [String.prototype.trim],
    [newVariableCollection mode prefix] is [new VariableCollection(mode,
    prefix, null)], [addFromObject] either throws or gives the collection
    back, [add] and [finalize] are the methods of [ModeCollection]. A throw
    rejects the promise of this async function. *)
Section GetModeCollectionForType.
Variable trim : string -> string.
Variable newVariableCollection : string -> string -> VariableCollection.t.
Variable addFromObject :
  list (string * token) -> VariableCollection.t ->
  VariableCollection.error + VariableCollection.t.
Variable add :
  string -> VariableCollection.t -> ModeCollection.t -> ModeCollection.t.
Variable finalize : ModeCollection.t -> ModeCollection.t.

(** The loop [for (const mode in modes)]. *)
Fixpoint addModes
    (prefix : string) (toSkip : list (option string))
    (modes : list (string * list (string * token))) (collection : ModeCollection.t)
    : VariableCollection.error + ModeCollection.t :=
  match modes with
  | [] => inr collection
  | (mode, tokens) :: rest =>
      if includes toSkip mode then addModes prefix toSkip rest collection
      else
        let vars := newVariableCollection mode prefix in
        match addFromObject tokens vars with
        | inl e => inl e
        | inr vars => addModes prefix toSkip rest (add mode vars collection)
        end
  end.

Definition getModeCollectionForType
    (modeType : string) (toSkip : list (option string))
    (prefixFile : option string)
    (indexFile : option (list (string * list (string * token))))
    : VariableCollection.error + ModeCollection.t :=
  let prefix :=
    match prefixFile with
    | Some text => trim text
    | None => modeType
    end in
  let collection := ModeCollection.mk modeType prefix [] in
  match indexFile with
  | Some modes =>
      match addModes prefix toSkip modes collection with
      | inl e => inl e
      | inr collection => inr (finalize collection)
      end
  | None => inr (finalize collection)
  end.
End GetModeCollectionForType.





(** How the two calls of [writeReplacements] in [writeModeOutput] end. The
    calls are not awaited: the second one starts when the first has returned
    or has reached its [await mkdirp], that is before the first one writes
    its file. An exit in either call ends the process with nothing written;
    otherwise the writes both calls have reached are still to come. *)
Inductive run : Type :=
| Exit (status : nat) (log : Build.logged)
| Scheduled (writes : list (string * string * Build.replacementMap)).

Definition writesOf (o : Build.outcome) : list (string * string * Build.replacementMap) :=
  match o with
  | Build.Wrote dir file content => [(dir, file, content)]
  | _ => []
  end.

(** The last two statements of [writeModeOutput]. *)
Definition writeModeOutputReplacements
    (deprecatedFile removedFile deprecatedDir removedDir : string)
    (collection : ModeCollection.t) (deprecated removed : Build.input) : run :=
  match Build.writeReplacements deprecatedFile deprecatedDir collection
          Build.validateDeprecatedVar deprecated with
  | Build.Exited status log => Exit status log
  | first =>
      match Build.writeReplacements removedFile removedDir collection
              Build.validateRemovedVar removed with
      | Build.Exited status log => Exit status log
      | second => Scheduled (writesOf first ++ writesOf second)
      end
  end.

(** *** Vocabulary *)

(** [skipped env modeType mode]: [build] makes
    [getModeCollectionForType] pass over the mode. *)
Definition skipped (env : option string) (modeType mode : string) : bool :=
  includes (toSkip env modeType) mode.

(** A name that can stand in [PRIMER_SKIP]: free of commas and slashes. *)
Definition plainName (s : string) : bool :=
  negb (occurs comma s) && negb (occurs slash s).

(** [PRIMER_SKIP] written from (type, mode) pairs. *)
Definition skipText (pairs : list (string * string)) : string :=
  String.concat "," (map (fun pair => (fst pair ++ "/" ++ snd pair)%string) pairs).

(** A replacement in the shape of an array of its targets. *)
Definition asArray (replacement : json) : json :=
  JArray (Ledger.replacementVars replacement).

(** An entry the loop of [writeReplacements] finds nothing against. *)
Definition accepted
    (validateVar : string -> ModeCollection.t -> string -> list Build.message)
    (ledger : Build.replacementMap) (collection : ModeCollection.t)
    (inputFile : string) (entry : string * json) : Prop :=
  validateVar (fst entry) collection inputFile = []
  /\ forall replacementVar,
       In replacementVar (Ledger.replacementVars (snd entry)) ->
       exists s,
         replacementVar = JString s
         /\ Build.existsInCollection collection s = true
         /\ ~ In s (OrderedMap.keys ledger).

End Script.

(** ** Vocabulary of the emitted texts *)

Module Text.







End Text.


(** ** Sample data

    The scenario of section 8: a type [colors] whose light mode defines
    [colors-scale.black] and [colors-fg.default]; the dark mode lacks the
    latter. *)

Module Sample.

Definition black : VariableCollection.variable :=
  VariableCollection.mkVariable "colors-scale.black"
    (RLiteral (LString "#1b1f23")) ["scale"; "black"].

Definition fgDefault : VariableCollection.variable :=
  VariableCollection.mkVariable "colors-fg.default"
    (RLiteral (LString "#24292e")) ["fg"; "default"].

Definition light : VariableCollection.t :=
  VariableCollection.mk "light" "colors"
    [("colors-scale.black", black); ("colors-fg.default", fgDefault)].

Definition dark : VariableCollection.t :=
  VariableCollection.mk "dark" "colors" [("colors-scale.black", black)].

Definition colors : ModeCollection.t :=
  ModeCollection.mk "colors" "colors" [("light", light); ("dark", dark)].

(** A cut of [data/colors_v2/light.ts]: references to earlier declarations,
    literals and deferred functions. *)
Definition tokens : list (string * token) :=
  [("scale", Nested [("black", Literal (LString "#1b1f23"));
                     ("white", Literal (LString "#ffffff"))]);
   ("fg", Nested [("default", Reference "scale.black");
                  ("onEmphasis", Reference "scale.white")]);
   ("btn", Nested [("hoverBg", Literal (LString "#f3f4f6"));
                   ("shadow", DeferredFn (fun _ => LString "0 1px 0 rgba(27,31,35,0.04)"));
                   ("primary", Nested [("text", Reference "scale.white");
                                       ("bg", Literal (LString "#2ea44f"))])])].

(** A reference to an element of an array, as [light.ts] writes them
    ([get('scale.gray.9')]). *)
Definition element : list (string * token) :=
  [("scale", Nested [("gray", Literal (LArray [LString "#fafbfc"; LString "#f6f8fa"]))]);
   ("fg", Nested [("default", Reference "scale.gray.1")])].

(** The same with a declaration moved after its use. *)
Definition forward : list (string * token) :=
  [("fg", Nested [("default", Reference "scale.black")]);
   ("scale", Nested [("black", Literal (LString "#1b1f23"))])].

Definition inputFile : string := "data/colors/deprecated.json".

(** A second type: two modes with the same names and different values. *)
Definition dim : VariableCollection.t :=
  VariableCollection.mk "dim" "colors"
    [("colors-scale.black",
      VariableCollection.mkVariable "colors-scale.black"
        (RLiteral (LString "#000000")) ["scale"; "black"])].

Definition parity : ModeCollection.t :=
  ModeCollection.mk "colors" "colors" [("dark", dark); ("dim", dim)].

End Sample.

(** ** More sample data *)

Module Fixtures.

(** The modes of a type as [index.ts] exports them, one of them with an
    undefined reference. *)
Definition modes : list (string * list (string * token)) :=
  [("light", Sample.tokens); ("dark", Sample.forward); ("dim", Sample.tokens)].

(** The [add] of a [Map]: the mode is set under its name. *)
Definition add (mode : string) (vars : VariableCollection.t) (collection : ModeCollection.t)
    : ModeCollection.t :=
  ModeCollection.mk (ModeCollection.type collection) (ModeCollection.prefix collection)
    (OrderedMap.set mode vars (ModeCollection.modes collection)).

(** The sample collection with its modes the other way round. *)
Definition colorsReversed : ModeCollection.t :=
  ModeCollection.mk "colors" "colors" [("dark", Sample.dark); ("light", Sample.light)].

(** A type without any mode. *)
Definition bare : ModeCollection.t := ModeCollection.mk "colors" "colors" [].

End Fixtures.

(** Distinct keys of a literal ledger. *)
Ltac distinct_keys := simpl; repeat constructor; simpl; intuition discriminate.

(** * Part II: properties *)

(** ** Ordered maps *)

Section OrderedMapFacts.
Context {V : Type}.
Implicit Types m : list (string * V).

Lemma get_Some_In key m v : OrderedMap.get key m = Some v -> In (key, v) m.
Proof.
  induction m as [|[k w] rest IH]; simpl; [discriminate|].
  destruct (String.eqb_spec k key) as [->|_].
  - intros [= ->]. now left.
  - intros H. right. now apply IH.
Qed.

Lemma get_None_not_In key m : OrderedMap.get key m = None <-> ~ In key (OrderedMap.keys m).
Proof.
  induction m as [|[k w] rest IH]; simpl.
  - tauto.
  - destruct (String.eqb_spec k key) as [->|Hne].
    + split; [discriminate|]. intros H. exfalso. apply H. now left.
    + rewrite IH. tauto.
Qed.

Lemma In_get_Some key v m :
  NoDup (OrderedMap.keys m) -> In (key, v) m -> OrderedMap.get key m = Some v.
Proof.
  induction m as [|[k w] rest IH]; simpl; [tauto|].
  intros Hnd Hin. inversion Hnd as [|? ? Hk Hrest]; subst.
  destruct Hin as [[= -> ->]|Hin].
  - now rewrite String.eqb_refl.
  - destruct (String.eqb_spec k key) as [->|_].
    + exfalso. apply Hk. change key with (fst (key, v)). now apply in_map.
    + now apply IH.
Qed.
End OrderedMapFacts.

(** ** The validation loop *)

Section ValidationLoop.
Import Build Ledger.
Variable validateVar : string -> ModeCollection.t -> string -> list message.
Variable ledger : replacementMap.
Variable collection : ModeCollection.t.
Variable inputFile : string.

(** The callback only ever appends to the array it closes over. *)
Lemma checkReplacementVar_appends original replacementVar errors :
  checkReplacementVar ledger collection inputFile original replacementVar errors
  = errors ++ checkReplacementVar ledger collection inputFile original replacementVar [].
Proof.
  unfold checkReplacementVar.
  destruct replacementVar; simpl; try reflexivity.
  destruct (existsInCollection collection s); simpl; [|reflexivity].
  destruct (existsb _ _); simpl; [reflexivity|].
  now rewrite app_nil_r.
Qed.

Lemma fold_checkReplacementVar original items errors :
  fold_left
    (fun s replacementVar =>
       checkReplacementVar ledger collection inputFile original replacementVar s)
    items errors
  = errors ++ flat_map
      (fun replacementVar =>
         checkReplacementVar ledger collection inputFile original replacementVar [])
      items.
Proof.
  revert errors. induction items as [|x items IH]; intros errors; simpl.
  - now rewrite app_nil_r.
  - rewrite IH, checkReplacementVar_appends. now rewrite <- app_assoc.
Qed.

Lemma forEachReplacementVar_appends original replacement errors :
  forEachReplacementVar replacement
    (checkReplacementVar ledger collection inputFile original) errors
  = errors ++ flat_map
      (fun replacementVar =>
         checkReplacementVar ledger collection inputFile original replacementVar [])
      (replacementVars replacement).
Proof.
  destruct replacement; simpl; rewrite ?app_nil_r; try reflexivity.
  - apply (checkReplacementVar_appends original (JString s)).
  - apply fold_checkReplacementVar.
Qed.
End ValidationLoop.

Section ValidationsFlatMap.
Import Build Ledger.
Variable validateVar : string -> ModeCollection.t -> string -> list message.
Variable collection : ModeCollection.t.
Variable inputFile : string.

(** The loop over a part [entries] of the ledger [keys] are taken from. *)
Lemma validations_loop (ledger entries : replacementMap) errors :
  fold_left
    (fun errors entry =>
       let '(original, replacement) := entry in
       let errors := errors ++ validateVar original collection inputFile in
       forEachReplacementVar replacement
         (checkReplacementVar ledger collection inputFile original) errors)
    entries errors
  = errors ++ flat_map (entryErrors validateVar ledger collection inputFile) entries.
Proof.
  revert errors. induction entries as [|[original replacement] entries IH];
    intros errors; simpl.
  - now rewrite app_nil_r.
  - rewrite IH, forEachReplacementVar_appends. unfold entryErrors; simpl.
    now rewrite <- !app_assoc.
Qed.

(** The violations are the entries' contributions, in ledger order. *)
Lemma validations_flat_map (ledger : replacementMap) :
  validations validateVar ledger collection inputFile
  = flat_map (entryErrors validateVar ledger collection inputFile) ledger.
Proof. unfold validations. now rewrite validations_loop. Qed.
End ValidationsFlatMap.

(** ** Errors about the original name of an entry *)

Section OriginalErrors.
Import Build Ledger.
Variable collection : ModeCollection.t.
Variable inputFile : string.

Lemma validateDeprecatedVar_cases variable :
  validateDeprecatedVar variable collection inputFile
  = if existsInCollection collection variable then []
    else [CannotDeprecateUndefined variable inputFile].
Proof.
  unfold validateDeprecatedVar. now destruct (existsInCollection collection variable).
Qed.

Lemma validateRemovedVar_cases variable :
  validateRemovedVar variable collection inputFile
  = if existsInCollection collection variable
    then [RemovedStillDefined variable inputFile] else [].
Proof.
  unfold validateRemovedVar. now destruct (existsInCollection collection variable).
Qed.

(** The callback reports replacement errors only. *)
Lemma checkReplacementVar_class ledger original replacementVar e :
  In e (checkReplacementVar ledger collection inputFile original replacementVar []) ->
  isReplacementError e = true.
Proof.
  unfold checkReplacementVar.
  destruct replacementVar; simpl;
    try (intros [<-|[]]; reflexivity).
  destruct (existsInCollection collection s); simpl.
  - destruct (existsb _ _); simpl; [intros [<-|[]]; reflexivity | tauto].
  - intros [<-|[]]; reflexivity.
Qed.

Lemma filter_none {A} (p : A -> bool) (l : list A) :
  (forall x, In x l -> p x = false) -> filter p l = [].
Proof.
  induction l as [|x l IH]; simpl; intros H; [reflexivity|].
  rewrite (H x) by now left. apply IH. intros y Hy. apply H. now right.
Qed.

(** A class [p] of errors about originals is untouched by the targets. *)
Lemma filter_entryErrors validateVar ledger (p : message -> bool) entry :
  (forall e, isReplacementError e = true -> p e = false) ->
  filter p (entryErrors validateVar ledger collection inputFile entry)
  = filter p (validateVar (fst entry) collection inputFile).
Proof.
  intros Hp. unfold entryErrors. rewrite filter_app.
  rewrite (filter_none p (flat_map _ _)); [apply app_nil_r|].
  intros e He. apply in_flat_map in He as (t & _ & He).
  apply Hp. eapply checkReplacementVar_class, He.
Qed.

Lemma filter_validations validateVar ledger (p : message -> bool) :
  (forall e, isReplacementError e = true -> p e = false) ->
  filter p (validations validateVar ledger collection inputFile)
  = flat_map (fun entry => filter p (validateVar (fst entry) collection inputFile))
      ledger.
Proof.
  intros Hp. rewrite validations_flat_map.
  generalize ledger at 1. intros keys.
  induction ledger as [|entry entries IH]; simpl; [reflexivity|].
  now rewrite filter_app, IH, filter_entryErrors.
Qed.

Lemma stale_not_replacement original e :
  isReplacementError e = true -> isStaleDeprecationOf original e = false.
Proof. now destruct e. Qed.

Lemma removal_not_replacement original e :
  isReplacementError e = true -> isInvalidRemovalOf original e = false.
Proof. now destruct e. Qed.

(** Errors about an original that is the key of no entry: none. *)
Lemma no_entry_no_error
    (errorsOf : string -> list message) (p : string -> message -> bool)
    original (entries : replacementMap) :
  (forall other e, In e (errorsOf other) -> p original e = true -> other = original) ->
  ~ In original (OrderedMap.keys entries) ->
  flat_map (fun entry => filter (p original) (errorsOf (fst entry))) entries = [].
Proof.
  intros Hp. induction entries as [|[k r] entries IH]; simpl; [reflexivity|].
  intros Hk. rewrite IH by tauto. rewrite app_nil_r.
  apply filter_none. intros e He.
  destruct (p original e) eqn:E; [|reflexivity].
  exfalso. apply Hk. left. now apply (Hp k e).
Qed.

(** With unique keys, the errors about an original come from its entry. *)
Lemma unique_entry_errors
    (errorsOf : string -> list message) (p : string -> message -> bool)
    original replacement (entries : replacementMap) :
  (forall other e, In e (errorsOf other) -> p original e = true -> other = original) ->
  NoDup (OrderedMap.keys entries) ->
  In (original, replacement) entries ->
  flat_map (fun entry => filter (p original) (errorsOf (fst entry))) entries
  = filter (p original) (errorsOf original).
Proof.
  intros Hp. induction entries as [|[k r] entries IH]; simpl; [tauto|].
  intros Hnd Hin. inversion Hnd as [|? ? Hk Hrest]; subst.
  destruct Hin as [[= -> ->]|Hin].
  - rewrite (@no_entry_no_error errorsOf p) by assumption. apply app_nil_r.
  - rewrite IH by assumption.
    rewrite filter_none; [reflexivity|].
    intros e He. destruct (p original e) eqn:E; [|reflexivity].
    exfalso. apply Hk. rewrite (Hp k e He E).
    change original with (fst (original, replacement)). now apply in_map.
Qed.
End OriginalErrors.

(** C1. In deprecated mode, an entry of the ledger gets an error about its
    original name exactly when that name, prefixed, does not exist in the
    Mode Collection, and then it gets exactly one such error. *)
Theorem deprecated_original_reported_once
    (ledger : Build.replacementMap) (collection : ModeCollection.t)
    (inputFile original : string) (replacement : json) :
  NoDup (OrderedMap.keys ledger) ->
  In (original, replacement) ledger ->
  length (filter (Ledger.isStaleDeprecationOf original)
            (Build.validations Build.validateDeprecatedVar ledger collection inputFile))
  = (if Build.existsInCollection collection original then 0 else 1)
  /\ Build.validateDeprecatedVar original collection inputFile
     = (if Build.existsInCollection collection original then []
        else [Build.CannotDeprecateUndefined original inputFile]).
Proof.
  intros Hnd Hin. split; [|apply validateDeprecatedVar_cases].
  rewrite filter_validations by apply stale_not_replacement.
  rewrite (@unique_entry_errors
             (fun o => Build.validateDeprecatedVar o collection inputFile)
             Ledger.isStaleDeprecationOf original replacement); try assumption.
  - rewrite validateDeprecatedVar_cases.
    destruct (Build.existsInCollection collection original); simpl; [reflexivity|].
    now rewrite String.eqb_refl.
  - intros other e. rewrite validateDeprecatedVar_cases.
    destruct (Build.existsInCollection collection other); simpl; [tauto|].
    intros [<-|[]]; simpl. now intros ->%String.eqb_eq.
Qed.

(** C2. In removed mode, an entry of the ledger gets an error about its
    original name exactly when that name, prefixed, does exist in the Mode
    Collection, and then it gets exactly one such error. *)
Theorem removed_original_reported_once
    (ledger : Build.replacementMap) (collection : ModeCollection.t)
    (inputFile original : string) (replacement : json) :
  NoDup (OrderedMap.keys ledger) ->
  In (original, replacement) ledger ->
  length (filter (Ledger.isInvalidRemovalOf original)
            (Build.validations Build.validateRemovedVar ledger collection inputFile))
  = (if Build.existsInCollection collection original then 1 else 0)
  /\ Build.validateRemovedVar original collection inputFile
     = (if Build.existsInCollection collection original
        then [Build.RemovedStillDefined original inputFile] else []).
Proof.
  intros Hnd Hin. split; [|apply validateRemovedVar_cases].
  rewrite filter_validations by apply removal_not_replacement.
  rewrite (@unique_entry_errors
             (fun o => Build.validateRemovedVar o collection inputFile)
             Ledger.isInvalidRemovalOf original replacement); try assumption.
  - rewrite validateRemovedVar_cases.
    destruct (Build.existsInCollection collection original); simpl; [|reflexivity].
    now rewrite String.eqb_refl.
  - intros other e. rewrite validateRemovedVar_cases.
    destruct (Build.existsInCollection collection other); simpl; [|tauto].
    intros [<-|[]]; simpl. now intros ->%String.eqb_eq.
Qed.

Lemma deprecated_original_reported_once_witness :
  let ledger := [("fg.old", JString "fg.default"); ("scale.black", JNull)] in
  NoDup (OrderedMap.keys ledger)
  /\ In ("fg.old", JString "fg.default") ledger
  /\ length (filter (Ledger.isStaleDeprecationOf "fg.old")
               (Build.validations Build.validateDeprecatedVar ledger
                  Sample.colors Sample.inputFile)) = 1.
Proof.
  intros ledger.
  assert (Hnd : NoDup (OrderedMap.keys ledger)) by distinct_keys.
  assert (Hin : In ("fg.old", JString "fg.default") ledger) by (now left).
  split; [exact Hnd | split; [exact Hin|]].
  exact (proj1 (@deprecated_original_reported_once
                  ledger Sample.colors Sample.inputFile _ _ Hnd Hin)).
Defined.

Lemma removed_original_reported_once_witness :
  let ledger := [("fg.default", JNull); ("fg.old", JNull)] in
  NoDup (OrderedMap.keys ledger)
  /\ In ("fg.default", JNull) ledger
  /\ length (filter (Ledger.isInvalidRemovalOf "fg.default")
               (Build.validations Build.validateRemovedVar ledger
                  Sample.colors Sample.inputFile)) = 1.
Proof.
  intros ledger.
  assert (Hnd : NoDup (OrderedMap.keys ledger)) by distinct_keys.
  assert (Hin : In ("fg.default", JNull) ledger) by (now left).
  split; [exact Hnd | split; [exact Hin|]].
  exact (proj1 (@removed_original_reported_once
                  ledger Sample.colors Sample.inputFile _ _ Hnd Hin)).
Defined.

(** ** Existence in a Mode Collection *)

(** C10. A dotted name exists in a Mode Collection exactly when its
    prefixed name is present in at least one mode's Variable Collection. *)
Theorem existsInCollection_some_mode (collection : ModeCollection.t) (name : string) :
  Build.existsInCollection collection name = true
  <-> exists mode vars,
        In (mode, vars) (ModeCollection.modes collection)
        /\ VariableCollection.getByName vars
             (getFullName (ModeCollection.prefix collection) (split dot name))
           <> None.
Proof.
  unfold Build.existsInCollection. rewrite existsb_exists. split.
  - intros (vars & Hin & Hget). apply in_map_iff in Hin as ([mode vars'] & <- & Hin).
    exists mode, vars'. split; [assumption|]. simpl in Hget.
    now destruct (VariableCollection.getByName vars' _).
  - intros (mode & vars & Hin & Hget). exists vars. split.
    + change vars with (snd (mode, vars)). now apply in_map.
    + now destruct (VariableCollection.getByName vars _).
Qed.

(** The modes of the sample disagree on [fg.default]: it counts as defined. *)
Example existsInCollection_modes_disagree :
  VariableCollection.getByName Sample.light "colors-fg.default" = Some Sample.fgDefault
  /\ VariableCollection.getByName Sample.dark "colors-fg.default" = None
  /\ Build.existsInCollection Sample.colors "fg.default" = true.
Proof. repeat split. Qed.

(** ** Errors about replacement targets *)

Section TargetErrors.
Import Build Ledger.
Variable validateVar : string -> ModeCollection.t -> string -> list message.
Variable ledger : replacementMap.
Variable collection : ModeCollection.t.
Variable inputFile : string.

Lemma includes_In (s : string) (l : list string) :
  existsb (String.eqb s) l = true <-> In s l.
Proof.
  rewrite existsb_exists. split.
  - now intros (x & Hx & ->%String.eqb_eq).
  - intros H. exists s. split; [assumption | apply String.eqb_refl].
Qed.

(** What the callback reports for one target, case by case. *)
Lemma checkReplacementVar_string original s :
  checkReplacementVar ledger collection inputFile original (JString s) []
  = if negb (existsInCollection collection s)
    then [UndefinedReplacement original s inputFile]
    else if existsb (String.eqb s) (OrderedMap.keys ledger)
    then [DeprecatedReplacement original s inputFile]
    else [].
Proof. reflexivity. Qed.

Lemma checkReplacementVar_not_string original replacementVar :
  (forall s, replacementVar <> JString s) ->
  checkReplacementVar ledger collection inputFile original replacementVar []
  = [InvalidReplacement original replacementVar inputFile].
Proof.
  intros H. destruct replacementVar; try reflexivity. now destruct (H s).
Qed.

(** Every error of a target of an entry is among the violations. *)
Lemma target_error_reported original replacement replacementVar e :
  In (original, replacement) ledger ->
  In replacementVar (replacementVars replacement) ->
  In e (checkReplacementVar ledger collection inputFile original replacementVar []) ->
  In e (validations validateVar ledger collection inputFile).
Proof.
  intros Hentry Htarget He. rewrite validations_flat_map.
  apply in_flat_map. exists (original, replacement). split; [assumption|].
  unfold entryErrors. apply in_or_app. right.
  apply in_flat_map. now exists replacementVar.
Qed.

(** Every replacement error among the violations is the error of a
    target of an entry, when the validator of originals reports none. *)
Lemma replacement_error_origin e :
  (forall o e', In e' (validateVar o collection inputFile) ->
                isReplacementError e' = false) ->
  isReplacementError e = true ->
  In e (validations validateVar ledger collection inputFile) ->
  exists original replacement replacementVar,
    In (original, replacement) ledger
    /\ In replacementVar (replacementVars replacement)
    /\ In e (checkReplacementVar ledger collection inputFile
               original replacementVar []).
Proof.
  intros Hvv Hclass. rewrite validations_flat_map.
  intros ([original replacement] & Hentry & He)%in_flat_map.
  unfold entryErrors in He. simpl in He.
  apply in_app_or in He as [He|He].
  - apply Hvv in He. congruence.
  - apply in_flat_map in He as (replacementVar & Htarget & He).
    now exists original, replacement, replacementVar.
Qed.
End TargetErrors.

Lemma ledger_validator_class validateVar collection inputFile o e :
  Ledger.isLedgerValidator validateVar ->
  In e (validateVar o collection inputFile) ->
  Ledger.isReplacementError e = false.
Proof.
  intros [-> | ->].
  - rewrite validateDeprecatedVar_cases.
    destruct (Build.existsInCollection collection o); simpl; [tauto|].
    now intros [<-|[]].
  - rewrite validateRemovedVar_cases.
    destruct (Build.existsInCollection collection o); simpl; [|tauto].
    now intros [<-|[]].
Qed.

(** C3 does not hold as the specification states it: in the removed-mode ledger
    [{"a": "b", "b": null}] over the sample collection the target ["b"] is
    both undefined and a key of the ledger, and only the first of the two
    violations is reported. *)
Lemma target_conditions_not_independent :
  let ledger := [("a", JString "b"); ("b", JNull)] in
  In ("a", JString "b") ledger
  /\ In (JString "b") (Ledger.replacementVars (JString "b"))
  /\ Build.existsInCollection Sample.colors "b" = false
  /\ In "b" (OrderedMap.keys ledger)
  /\ ~ In (Build.DeprecatedReplacement "a" "b" Sample.inputFile)
          (Build.validations Build.validateRemovedVar ledger
             Sample.colors Sample.inputFile).
Proof.
  repeat split; simpl; try tauto.
  intros [H|[]]. discriminate H.
Qed.

(** C3, amended. In either mode every replacement target of every entry is
    checked for (a) being a string, (b) existing in the Mode Collection after
    prefixing, (c) being no key of the ledger, in this order, and the first
    violated condition is reported as an error; a target gets at most one
    error, and none exactly when it meets all three conditions. *)
Theorem replacement_target_first_violation
    (validateVar : string -> ModeCollection.t -> string -> list Build.message)
    (ledger : Build.replacementMap) (collection : ModeCollection.t)
    (inputFile original : string) (replacement replacementVar : json) :
  In (original, replacement) ledger ->
  In replacementVar (Ledger.replacementVars replacement) ->
  let errors := Build.validations validateVar ledger collection inputFile in
  let reported :=
    Build.checkReplacementVar ledger collection inputFile original replacementVar [] in
  ((forall s, replacementVar <> JString s) ->
   In (Build.InvalidReplacement original replacementVar inputFile) errors)
  /\ (forall s, replacementVar = JString s ->
        Build.existsInCollection collection s = false ->
        In (Build.UndefinedReplacement original s inputFile) errors)
  /\ (forall s, replacementVar = JString s ->
        Build.existsInCollection collection s = true ->
        In s (OrderedMap.keys ledger) ->
        In (Build.DeprecatedReplacement original s inputFile) errors)
  /\ length reported <= 1
  /\ (reported = [] <->
      exists s, replacementVar = JString s
                /\ Build.existsInCollection collection s = true
                /\ ~ In s (OrderedMap.keys ledger)).
Proof.
  intros Hentry Htarget errors reported.
  assert (Hrep : forall e, In e reported -> In e errors)
    by (intros e; now apply target_error_reported with (replacement := replacement)).
  repeat split.
  - intros Hns. apply Hrep. unfold reported.
    rewrite checkReplacementVar_not_string by assumption. now left.
  - intros s -> Hex. apply Hrep. unfold reported.
    rewrite checkReplacementVar_string, Hex. now left.
  - intros s -> Hex Hkey. apply Hrep. unfold reported.
    rewrite checkReplacementVar_string, Hex. simpl.
    apply includes_In in Hkey. rewrite Hkey. now left.
  - unfold reported, Build.checkReplacementVar.
    destruct replacementVar; simpl; try lia.
    destruct (Build.existsInCollection collection s); simpl; [|lia].
    destruct (existsb _ _); simpl; lia.
  - unfold reported. destruct replacementVar; try discriminate.
    rewrite checkReplacementVar_string.
    destruct (Build.existsInCollection collection s) eqn:Hex; simpl; [|discriminate].
    destruct (existsb _ _) eqn:Hkey; [discriminate|].
    intros _. exists s. split; [reflexivity | split; [assumption|]].
    intros Hin%includes_In. congruence.
  - intros (s & -> & Hex & Hkey). unfold reported.
    rewrite checkReplacementVar_string, Hex. simpl.
    destruct (existsb _ _) eqn:E; [|reflexivity].
    apply includes_In in E. contradiction.
Qed.

Lemma replacement_target_first_violation_witness :
  let ledger := [("fg.old", JArray [JString "fg.default"; JNumber "3"])] in
  In ("fg.old", JArray [JString "fg.default"; JNumber "3"]) ledger
  /\ In (JNumber "3")
        (Ledger.replacementVars (JArray [JString "fg.default"; JNumber "3"]))
  /\ In (Build.InvalidReplacement "fg.old" (JNumber "3") Sample.inputFile)
        (Build.validations Build.validateDeprecatedVar ledger
           Sample.colors Sample.inputFile).
Proof.
  intros ledger.
  assert (Hin : In ("fg.old", JArray [JString "fg.default"; JNumber "3"]) ledger)
    by (now left).
  assert (Ht : In (JNumber "3")
                 (Ledger.replacementVars (JArray [JString "fg.default"; JNumber "3"])))
    by (simpl; tauto).
  split; [exact Hin | split; [exact Ht|]].
  apply (proj1 (@replacement_target_first_violation Build.validateDeprecatedVar
                  ledger Sample.colors Sample.inputFile _ _ _ Hin Ht)).
  intros s. discriminate.
Defined.

(** C4 does not hold as the specification states it: in the deprecated-mode ledger
    [{"scale.black": "fg.old", "fg.old": null}] over the sample collection
    the target ["fg.old"] is another key of the ledger, whose own entry does
    not validate, and no chained-replacement error is reported. *)
Lemma chained_replacement_not_reported :
  let ledger := [("scale.black", JString "fg.old"); ("fg.old", JNull)] in
  In ("scale.black", JString "fg.old") ledger
  /\ In (JString "fg.old") (Ledger.replacementVars (JString "fg.old"))
  /\ In "fg.old" (OrderedMap.keys ledger)
  /\ Build.validations Build.validateDeprecatedVar ledger Sample.colors Sample.inputFile
     = [Build.UndefinedReplacement "scale.black" "fg.old" Sample.inputFile;
        Build.CannotDeprecateUndefined "fg.old" Sample.inputFile]
  /\ ~ In (Build.DeprecatedReplacement "scale.black" "fg.old" Sample.inputFile)
          (Build.validations Build.validateDeprecatedVar ledger
             Sample.colors Sample.inputFile).
Proof.
  repeat split; simpl; try tauto.
  intros [H|[H|[]]]; discriminate H.
Qed.

(** C4, amended. In either mode, for an entry with a replacement target that
    is a key of the ledger, a chained-replacement error is reported for that
    entry and target exactly when the target, prefixed, exists in the Mode
    Collection; when it does not, an undefined-replacement error is reported
    for the entry and target in its place. *)
Theorem chained_replacement_when_defined
    (validateVar : string -> ModeCollection.t -> string -> list Build.message)
    (ledger : Build.replacementMap) (collection : ModeCollection.t)
    (inputFile original target : string) (replacement : json) :
  Ledger.isLedgerValidator validateVar ->
  In (original, replacement) ledger ->
  In (JString target) (Ledger.replacementVars replacement) ->
  In target (OrderedMap.keys ledger) ->
  let errors := Build.validations validateVar ledger collection inputFile in
  (In (Build.DeprecatedReplacement original target inputFile) errors
   <-> Build.existsInCollection collection target = true)
  /\ (In (Build.UndefinedReplacement original target inputFile) errors
      <-> Build.existsInCollection collection target = false).
Proof.
  intros Hvv Hentry Htarget Hkey errors.
  assert (Horigin : forall e, Ledger.isReplacementError e = true -> In e errors ->
            exists o r t, In (o, r) ledger /\ In t (Ledger.replacementVars r)
              /\ In e (Build.checkReplacementVar ledger collection inputFile o t [])).
  { intros e. apply replacement_error_origin.
    intros o e'. now apply ledger_validator_class. }
  assert (Hrep : forall e,
            In e (Build.checkReplacementVar ledger collection inputFile
                    original (JString target) []) -> In e errors)
    by (intros e; now apply target_error_reported with (replacement := replacement)).
  apply includes_In in Hkey.
  split; split.
  - intros (o & r & t & _ & _ & He)%Horigin; [|reflexivity].
    unfold Build.checkReplacementVar in He. destruct t; simpl in He;
      try (destruct He as [He|[]]; discriminate He).
    destruct (Build.existsInCollection collection s) eqn:Hex; simpl in He.
    + destruct (existsb (String.eqb s) (OrderedMap.keys ledger)); simpl in He; [|tauto].
      destruct He as [[= _ <-]|[]]. assumption.
    + destruct He as [He|[]]; discriminate He.
  - intros Hex. apply Hrep. rewrite checkReplacementVar_string, Hex. simpl.
    rewrite Hkey. now left.
  - intros (o & r & t & _ & _ & He)%Horigin; [|reflexivity].
    unfold Build.checkReplacementVar in He. destruct t; simpl in He;
      try (destruct He as [He|[]]; discriminate He).
    destruct (Build.existsInCollection collection s) eqn:Hex; simpl in He.
    + destruct (existsb (String.eqb s) (OrderedMap.keys ledger)); simpl in He; [|tauto].
      destruct He as [He|[]]; discriminate He.
    + destruct He as [[= _ <-]|[]]. assumption.
  - intros Hex. apply Hrep. rewrite checkReplacementVar_string, Hex. now left.
Qed.

Lemma chained_replacement_when_defined_witness :
  let ledger := [("scale.black", JString "fg.default"); ("fg.default", JNull)] in
  Ledger.isLedgerValidator Build.validateDeprecatedVar
  /\ In ("scale.black", JString "fg.default") ledger
  /\ In (JString "fg.default") (Ledger.replacementVars (JString "fg.default"))
  /\ In "fg.default" (OrderedMap.keys ledger)
  /\ In (Build.DeprecatedReplacement "scale.black" "fg.default" Sample.inputFile)
        (Build.validations Build.validateDeprecatedVar ledger
           Sample.colors Sample.inputFile).
Proof.
  intros ledger.
  assert (Hvv : Ledger.isLedgerValidator Build.validateDeprecatedVar) by (now left).
  assert (Hin : In ("scale.black", JString "fg.default") ledger) by (now left).
  assert (Ht : In (JString "fg.default")
                 (Ledger.replacementVars (JString "fg.default"))) by (now left).
  assert (Hk : In "fg.default" (OrderedMap.keys ledger)) by (simpl; tauto).
  repeat (split; [assumption|]).
  apply (proj1 (@chained_replacement_when_defined Build.validateDeprecatedVar
                  ledger Sample.colors Sample.inputFile _ _ _ Hvv Hin Ht Hk)).
  reflexivity.
Defined.

(** ** The outcome of [writeReplacements] *)

(** C5. For every ledger and Mode Collection the validation loop gives the
    violations of all entries, in ledger order, as a value: it does not stop
    at the first violation and it does not end the process. Fatality is
    decided after the loop, by the surrounding [writeReplacements], on the
    complete list: no violation, and the ledger is written; any violation,
    and the whole list is logged and the process exits with status 1. *)
Theorem writeReplacements_collects_all
    (validateVar : string -> ModeCollection.t -> string -> list Build.message)
    (ledger : Build.replacementMap) (collection : ModeCollection.t)
    (inputFile outputDir : string) :
  let errors :=
    flat_map (Ledger.entryErrors validateVar ledger collection inputFile) ledger in
  Build.validations validateVar ledger collection inputFile = errors
  /\ Build.writeReplacements inputFile outputDir collection validateVar
       (Build.Parsed ledger)
     = match errors with
       | [] => Build.Wrote outputDir (ModeCollection.type collection ++ ".json") ledger
       | _ :: _ => Build.Exited 1 (Build.Violations errors)
       end.
Proof.
  intros errors. split; [apply validations_flat_map|].
  unfold Build.writeReplacements. rewrite validations_flat_map.
  fold errors. now destruct errors.
Qed.

(** Two entries in violation: both are reported, in ledger order, before the
    caller escalates. *)
Example violations_accumulate_then_exit :
  let ledger := [("fg.old", JNull); ("fg.older", JString "fg.gone")] in
  Build.validations Build.validateDeprecatedVar ledger Sample.colors Sample.inputFile
  = [Build.CannotDeprecateUndefined "fg.old" Sample.inputFile;
     Build.CannotDeprecateUndefined "fg.older" Sample.inputFile;
     Build.UndefinedReplacement "fg.older" "fg.gone" Sample.inputFile]
  /\ Build.writeReplacements Sample.inputFile "dist/deprecated" Sample.colors
       Build.validateDeprecatedVar (Build.Parsed ledger)
     = Build.Exited 1
         (Build.Violations
            (Build.validations Build.validateDeprecatedVar ledger
               Sample.colors Sample.inputFile)).
Proof. split; reflexivity. Qed.

(** ** The Name Resolver *)

Section Names.

Lemma append_assoc (a b c : string) : ((a ++ b) ++ c = a ++ b ++ c)%string.
Proof. induction a as [|x a IH]; simpl; [reflexivity | now rewrite IH]. Qed.

Lemma append_inv_head (p x y : string) : (p ++ x = p ++ y)%string -> x = y.
Proof. induction p as [|c p IH]; simpl; [tauto | intros [= H]; now apply IH]. Qed.

(** Appending the segments one after the other is appending them all. *)
Lemma fold_append_segments (rest : list string) (init : string) :
  fold_left (fun name segment => (name ++ "." ++ segment)%string) rest init
  = (init ++ appendEach "." rest)%string.
Proof.
  revert init. induction rest as [|segment rest IH]; intros init; simpl.
  - induction init as [|c init IHi]; simpl; [reflexivity | now rewrite <- IHi].
  - rewrite IH. now rewrite append_assoc.
Qed.

Lemma getFullName_cons (prefix first : string) (rest : list string) :
  getFullName prefix (first :: rest)
  = (prefix ++ "-" ++ first ++ appendEach "." rest)%string.
Proof.
  unfold getFullName. rewrite fold_append_segments.
  now rewrite !append_assoc.
Qed.

(** A string free of [c], followed by nothing or by [c] and more, is cut
    at one place only. *)
Lemma cut_unique (c : ascii) (s s' t t' : string) :
  occurs c s = false -> occurs c s' = false ->
  opensWith c t -> opensWith c t' ->
  (s ++ t = s' ++ t')%string -> s = s' /\ t = t'.
Proof.
  revert s'. induction s as [|x s IH]; intros [|x' s'] Hs Hs' Ht Ht'; simpl.
  - tauto.
  - intros ->. exfalso. simpl in Hs'. apply orb_false_iff in Hs' as [Hx _].
    destruct Ht as [Ht|[u Ht]]; [discriminate|]. injection Ht as -> _.
    now rewrite Ascii.eqb_refl in Hx.
  - intros <-. exfalso. simpl in Hs. apply orb_false_iff in Hs as [Hx _].
    destruct Ht' as [Ht'|[u Ht']]; [discriminate|]. injection Ht' as -> _.
    now rewrite Ascii.eqb_refl in Hx.
  - intros [= -> H]. simpl in Hs, Hs'.
    apply orb_false_iff in Hs as [_ Hs]. apply orb_false_iff in Hs' as [_ Hs'].
    destruct (IH s' Hs Hs' Ht Ht' H) as [-> ->]. tauto.
Qed.

Lemma appendEach_opens (rest : list string) : opensWith dot (appendEach "." rest).
Proof. destruct rest; [now left | right; simpl; eauto]. Qed.

Lemma appendEach_inj (rest rest' : list string) :
  forallb dotFree rest = true -> forallb dotFree rest' = true ->
  appendEach "." rest = appendEach "." rest' -> rest = rest'.
Proof.
  revert rest'. induction rest as [|b rest IH]; intros [|b' rest']; simpl;
    try discriminate; [reflexivity|].
  intros [Hb Hrest]%andb_prop [Hb' Hrest']%andb_prop [= H].
  apply negb_true_iff in Hb, Hb'.
  destruct (cut_unique dot b b' _ _ Hb Hb'
              (appendEach_opens rest) (appendEach_opens rest') H) as [-> H'].
  f_equal. now apply IH.
Qed.

(** Under one prefix, dot-free non-empty paths have distinct names. *)
Lemma getFullName_inj_path (prefix : string) (path path' : list string) :
  path <> [] -> path' <> [] ->
  forallb dotFree path = true -> forallb dotFree path' = true ->
  getFullName prefix path = getFullName prefix path' -> path = path'.
Proof.
  destruct path as [|a rest]; [tauto|]. destruct path' as [|a' rest']; [tauto|].
  intros _ _ [Ha Hrest]%andb_prop [Ha' Hrest']%andb_prop.
  rewrite !getFullName_cons. intros H%append_inv_head. simpl in H.
  injection H as H. apply negb_true_iff in Ha, Ha'.
  destruct (cut_unique dot a a' _ _ Ha Ha'
              (appendEach_opens rest) (appendEach_opens rest') H) as [-> H'].
  f_equal. now apply appendEach_inj.
Qed.

Lemma wellFormedName_inv (prefix : string) (path : list string) :
  wellFormedName prefix path = true ->
  occurs hyphen prefix = false /\ path <> [] /\ forallb dotFree path = true.
Proof.
  unfold wellFormedName.
  intros [[Hp Hn]%andb_prop Hd]%andb_prop.
  apply negb_true_iff in Hp. repeat split; try assumption.
  intros ->. discriminate Hn.
Qed.

Lemma getFullName_inj (prefix prefix' : string) (path path' : list string) :
  wellFormedName prefix path = true -> wellFormedName prefix' path' = true ->
  getFullName prefix path = getFullName prefix' path' ->
  prefix = prefix' /\ path = path'.
Proof.
  intros (Hp & Hne & Hd)%wellFormedName_inv (Hp' & Hne' & Hd')%wellFormedName_inv H.
  assert (prefix = prefix') as <-.
  { destruct path as [|a rest]; [tauto|]. destruct path' as [|a' rest']; [tauto|].
    rewrite !getFullName_cons in H.
    apply (cut_unique hyphen prefix prefix' _ _ Hp Hp') in H; [tauto| |];
      right; simpl; eauto. }
  split; [reflexivity|]. now apply getFullName_inj_path with (prefix := prefix).
Qed.

(** Joining what [split] cut gives the string back. *)
Lemma split_nonempty (s : string) : split dot s <> [].
Proof.
  induction s as [|c s IH]; simpl; [discriminate|].
  destruct (Ascii.eqb c dot); [discriminate|].
  now destruct (split dot s).
Qed.

Lemma getFullName_split (prefix name : string) :
  getFullName prefix (split dot name) = (prefix ++ "-" ++ name)%string.
Proof.
  assert (H : forall s, exists first rest,
              split dot s = first :: rest
              /\ (first ++ appendEach "." rest)%string = s).
  { induction s as [|c s (first & rest & Hs & Hj)]; simpl.
    - now exists EmptyString, [].
    - destruct (Ascii.eqb_spec c dot) as [->|Hc].
      + exists EmptyString, (split dot s). split; [reflexivity|].
        rewrite Hs. simpl. now rewrite Hj.
      + rewrite Hs. exists (String c first), rest. split; [reflexivity|].
        simpl. now rewrite Hj. }
  destruct (H name) as (first & rest & -> & Hj).
  rewrite getFullName_cons. now rewrite Hj.
Qed.
End Names.

(** C6. For every prefix and non-empty path the full name is the prefix, a
    hyphen, the first segment, and then every remaining segment prepended
    with a dot, with nothing else done to the strings; and on well-formed
    input (a prefix without hyphen, a non-empty path of segments without
    dot) distinct (prefix, path) pairs get distinct names. *)
Theorem getFullName_concatenates_and_is_injective :
  (forall prefix first rest,
      getFullName prefix (first :: rest)
      = (prefix ++ "-" ++ first ++ appendEach "." rest)%string)
  /\ (forall prefix a b c,
        getFullName prefix [a; b; c]
        = (prefix ++ "-" ++ a ++ "." ++ b ++ "." ++ c)%string)
  /\ (forall prefix prefix' path path',
        wellFormedName prefix path = true ->
        wellFormedName prefix' path' = true ->
        getFullName prefix path = getFullName prefix' path' ->
        prefix = prefix' /\ path = path').
Proof.
  split; [exact getFullName_cons | split; [|exact getFullName_inj]].
  intros prefix a b c. unfold getFullName. simpl.
  now rewrite !append_assoc.
Qed.

Lemma getFullName_concatenates_and_is_injective_witness :
  wellFormedName "colors" ["btn"; "primary"; "bg"] = true
  /\ getFullName "colors" ["btn"; "primary"; "bg"] = "colors-btn.primary.bg"
  /\ (getFullName "colors" ["btn"; "primary"; "bg"]
      = getFullName "colors" ["btn"; "primary"; "bg"] ->
      "colors" = "colors" /\ ["btn"; "primary"; "bg"] = ["btn"; "primary"; "bg"]).
Proof.
  split; [reflexivity | split; [reflexivity|]].
  apply (proj2 (proj2 getFullName_concatenates_and_is_injective)
           "colors" "colors" ["btn"; "primary"; "bg"] ["btn"; "primary"; "bg"]);
    reflexivity.
Defined.

(** Without well-formedness two pairs can share a name: a hyphen may belong
    to the prefix or to the first segment, a dot to a segment or to the
    path. *)
Example getFullName_collisions :
  getFullName "a-b" ["c"] = getFullName "a" ["b-c"]
  /\ getFullName "p" ["a.b"] = getFullName "p" ["a"; "b"].
Proof. split; reflexivity. Qed.


(** ** Mode parity *)

Section ModeParity.
Import ModeCollection.
Variable collection : ModeCollection.t.

Lemma getByName_None (vars : VariableCollection.t) (variable : string) :
  VariableCollection.getByName vars variable = None
  <-> ~ In variable (VariableCollection.names vars).
Proof. apply get_None_not_In. Qed.

Lemma In_missingFrom (vars other : VariableCollection.t) (variable : string) :
  In variable (missingFrom vars other)
  <-> In variable (VariableCollection.names other)
      /\ ~ In variable (VariableCollection.names vars).
Proof.
  unfold missingFrom. rewrite filter_In, <- getByName_None.
  destruct (VariableCollection.getByName vars variable); split;
    intros [H1 H2]; split; congruence.
Qed.

(** The errors of [validate] are the (mode, variable) pairs that lack. *)
Lemma In_validate_errors (mode variable : string) :
  In (ModeParityViolation mode variable) (errors (validate collection))
  <-> lacks collection mode variable.
Proof.
  unfold validate, lacks. simpl. rewrite nodup_In, in_flat_map. split.
  - intros ([m vars] & Hm & H). apply in_flat_map in H as ([m' vars'] & Hm' & H).
    apply in_map_iff in H as (n & [= <- <-] & Hn). simpl in Hn.
    apply In_missingFrom in Hn as [Hin Hout].
    exists vars. repeat split; try assumption. now exists m', vars'.
  - intros (vars & Hm & Hout & m' & vars' & Hm' & Hin).
    exists (mode, vars). split; [assumption|].
    apply in_flat_map. exists (m', vars'). split; [assumption|].
    apply in_map. now apply In_missingFrom.
Qed.

Lemma validate_errors_NoDup : NoDup (errors (validate collection)).
Proof. apply NoDup_nodup. Qed.

Lemma isValid_no_errors :
  isValid (validate collection) = true <-> errors (validate collection) = [].
Proof.
  unfold validate. simpl. rewrite Nat.eqb_eq. apply length_zero_iff_nil.
Qed.

Lemma no_errors_sameNames :
  errors (validate collection) = [] <-> sameNames collection.
Proof.
  split.
  - intros Hnil mode vars mode' vars' Hm Hm' variable.
    assert (Hno : forall m n, ~ lacks collection m n).
    { intros m n H%In_validate_errors. now rewrite Hnil in H. }
    destruct (in_dec string_dec variable (VariableCollection.names vars)) as [Hv|Hv];
      destruct (in_dec string_dec variable (VariableCollection.names vars')) as [Hv'|Hv'];
      try tauto; exfalso.
    + apply (Hno mode' variable). exists vars'. repeat split; try assumption.
      now exists mode, vars.
    + apply (Hno mode variable). exists vars. repeat split; try assumption.
      now exists mode', vars'.
  - intros Hsame. destruct (errors (validate collection)) as [|[m n] l] eqn:E;
      [reflexivity|exfalso].
    assert (H : lacks collection m n) by (apply In_validate_errors; rewrite E; now left).
    destruct H as (vars & Hm & Hout & m' & vars' & Hm' & Hin).
    apply Hout. now apply (Hsame m vars m' vars' Hm Hm').
Qed.
End ModeParity.

(** [validate] reads the names of the variables only. *)
Lemma missingFrom_names (vars other vars2 other2 : VariableCollection.t) :
  VariableCollection.names vars = VariableCollection.names vars2 ->
  VariableCollection.names other = VariableCollection.names other2 ->
  ModeCollection.missingFrom vars other = ModeCollection.missingFrom vars2 other2.
Proof.
  intros Hv Ho. unfold ModeCollection.missingFrom. rewrite <- Ho.
  apply filter_ext. intros variable.
  destruct (VariableCollection.getByName vars variable) eqn:E;
    destruct (VariableCollection.getByName vars2 variable) eqn:E2; try reflexivity;
    exfalso.
  - apply getByName_None in E2. rewrite <- Hv in E2.
    apply getByName_None in E2. congruence.
  - apply getByName_None in E. rewrite Hv in E.
    apply getByName_None in E. congruence.
Qed.

Lemma found_names (outer outer2 inner inner2 : list (string * VariableCollection.t)) :
  map (fun entry => (fst entry, VariableCollection.names (snd entry))) outer
  = map (fun entry => (fst entry, VariableCollection.names (snd entry))) outer2 ->
  map (fun entry => (fst entry, VariableCollection.names (snd entry))) inner
  = map (fun entry => (fst entry, VariableCollection.names (snd entry))) inner2 ->
  flat_map
    (fun entry =>
       flat_map
         (fun other =>
            map (ModeCollection.ModeParityViolation (fst entry))
              (ModeCollection.missingFrom (snd entry) (snd other))) inner) outer
  = flat_map
      (fun entry =>
         flat_map
           (fun other =>
              map (ModeCollection.ModeParityViolation (fst entry))
                (ModeCollection.missingFrom (snd entry) (snd other))) inner2) outer2.
Proof.
  revert outer2. induction outer as [|[m vars] outer IH]; intros [|[m2 vars2] outer2];
    simpl; try discriminate; [reflexivity|].
  intros [= <- Hv Houter] Hinner. rewrite (IH outer2 Houter Hinner). f_equal.
  clear IH Houter. revert inner2 Hinner.
  induction inner as [|[m' other] inner IH]; intros [|[m2' other2] inner2];
    simpl; try discriminate; [reflexivity|].
  intros [= _ Ho Hinner]. rewrite (IH inner2 Hinner). f_equal.
  now rewrite (missingFrom_names vars other vars2 other2).
Qed.

Lemma validate_names (collection collection' : ModeCollection.t) :
  ModeCollection.namesByMode collection = ModeCollection.namesByMode collection' ->
  ModeCollection.validate collection = ModeCollection.validate collection'.
Proof.
  unfold ModeCollection.namesByMode, ModeCollection.validate. intros H.
  now rewrite (found_names _ _ _ _ H H).
Qed.

(** Two modes (section 8): every name one mode has and the other lacks is one
    error, before any merging of repeated errors. *)
Lemma missingFrom_self (vars : VariableCollection.t) :
  ModeCollection.missingFrom vars vars = [].
Proof.
  apply filter_none. intros variable Hin.
  destruct (VariableCollection.getByName vars variable) eqn:E; [reflexivity|].
  apply getByName_None in E. contradiction.
Qed.

Lemma missingFrom_NoDup (vars other : VariableCollection.t) :
  NoDup (VariableCollection.names other) ->
  NoDup (ModeCollection.missingFrom vars other).
Proof. apply NoDup_filter. Qed.

Lemma validate_two_modes
    (type prefix mode1 mode2 : string) (vars1 vars2 : VariableCollection.t) :
  mode1 <> mode2 ->
  NoDup (VariableCollection.names vars1) ->
  NoDup (VariableCollection.names vars2) ->
  ModeCollection.errors
    (ModeCollection.validate
       (ModeCollection.mk type prefix [(mode1, vars1); (mode2, vars2)]))
  = map (ModeCollection.ModeParityViolation mode1)
        (ModeCollection.missingFrom vars1 vars2)
    ++ map (ModeCollection.ModeParityViolation mode2)
         (ModeCollection.missingFrom vars2 vars1).
Proof.
  intros Hmodes Hnd1 Hnd2. unfold ModeCollection.validate. simpl.
  rewrite !missingFrom_self. simpl. rewrite !app_nil_r.
  apply nodup_fixed_point, NoDup_app.
  - apply NoDup_map_NoDup_ForallPairs; [|now apply missingFrom_NoDup].
    intros x y _ _. congruence.
  - apply NoDup_map_NoDup_ForallPairs; [|now apply missingFrom_NoDup].
    intros x y _ _. congruence.
  - intros e (x & <- & _)%in_map_iff (y & [= H _] & _)%in_map_iff. congruence.
Qed.

(** C9. [validate] returns [isValid = true] exactly when all modes expose
    the same set of variable names, whatever the values; otherwise
    [isValid = false], and the errors are the (mode, variable) pairs where
    the mode lacks a variable another mode has, each pair reported exactly
    once. The result is a value: nothing is thrown and no error is left
    out. *)
Theorem validate_mode_parity (collection : ModeCollection.t) :
  let result := ModeCollection.validate collection in
  (ModeCollection.isValid result = true <-> ModeCollection.sameNames collection)
  /\ (ModeCollection.isValid result = false <-> ModeCollection.errors result <> [])
  /\ (forall mode variable,
        ModeCollection.lacks collection mode variable ->
        count_occ ModeCollection.error_eq_dec (ModeCollection.errors result)
          (ModeCollection.ModeParityViolation mode variable) = 1)
  /\ (forall mode variable,
        ~ ModeCollection.lacks collection mode variable ->
        count_occ ModeCollection.error_eq_dec (ModeCollection.errors result)
          (ModeCollection.ModeParityViolation mode variable) = 0)
  /\ (forall collection',
        ModeCollection.namesByMode collection' = ModeCollection.namesByMode collection ->
        ModeCollection.validate collection' = result).
Proof.
  intros result. split; [|split; [|split; [|split]]].
  - unfold result. now rewrite isValid_no_errors, no_errors_sameNames.
  - unfold result. rewrite <- isValid_no_errors.
    now destruct (ModeCollection.isValid (ModeCollection.validate collection)).
  - intros mode variable H.
    apply NoDup_count_occ'; [apply validate_errors_NoDup|].
    now apply In_validate_errors.
  - intros mode variable H. apply count_occ_not_In.
    intros Hin. now apply H, In_validate_errors.
  - intros collection' H. now apply validate_names.
Qed.

Lemma validate_mode_parity_witness :
  ModeCollection.lacks Sample.colors "dark" "colors-fg.default"
  /\ count_occ ModeCollection.error_eq_dec
       (ModeCollection.errors (ModeCollection.validate Sample.colors))
       (ModeCollection.ModeParityViolation "dark" "colors-fg.default") = 1.
Proof.
  assert (H : ModeCollection.lacks Sample.colors "dark" "colors-fg.default").
  { exists Sample.dark. split; [simpl; tauto|]. split.
    - simpl. intros [H|[]]. discriminate H.
    - exists "light", Sample.light. simpl. tauto. }
  split; [exact H|].
  exact (proj1 (proj2 (proj2 (validate_mode_parity Sample.colors)))
           "dark" "colors-fg.default" H).
Defined.

(** The scenarios of section 8: same names and different values are valid;
    a name present in one mode and absent in the other is one error. *)
Example validate_scenarios :
  ModeCollection.validate Sample.parity = ModeCollection.mkValidation true []
  /\ ModeCollection.validate Sample.colors
     = ModeCollection.mkValidation false
         [ModeCollection.ModeParityViolation "dark" "colors-fg.default"].
Proof. split; reflexivity. Qed.


(** ** The walk of [addFromObject] *)


Section Walk.
Import VariableCollection.

Lemma addValue_cons path key child rest vc :
  addValue path (Nested ((key, child) :: rest)) vc
  = match addValue (path ++ [key]) child vc with
    | inl e => inl e
    | inr vc' => addValue path (Nested rest) vc'
    end.
Proof. reflexivity. Qed.

Lemma leavesOf_Nested mapping : leavesOf (Nested mapping) = leaves mapping.
Proof.
  unfold leaves. induction mapping as [|[key child] rest IH]; [reflexivity|].
  simpl in *. now rewrite IH.
Qed.

Lemma resolvedValue_Nested vc mapping :
  resolvedValue vc (Nested mapping) = Object (resolvedTree vc mapping).
Proof.
  unfold resolvedTree. simpl. f_equal.
  induction mapping as [|[key child] rest IH]; [reflexivity|].
  simpl. now rewrite IH.
Qed.

Lemma wellFormedValue_Nested mapping :
  wellFormedValue (Nested mapping) = true
  <-> mapping <> [] /\ wellFormedTree mapping = true.
Proof.
  assert (H : forall entries,
             (fix children (entries : list (string * token)) : bool :=
                match entries with
                | [] => true
                | (_, child) :: rest => wellFormedValue child && children rest
                end) entries
             = forallb (fun entry => wellFormedValue (snd entry)) entries).
  { induction entries as [|[key child] rest IH]; [reflexivity|].
    simpl. now rewrite IH. }
  unfold wellFormedTree. simpl. rewrite H, !andb_true_iff, negb_true_iff.
  destruct mapping; simpl; intuition congruence.
Qed.

Lemma leavesOf_leaf value l :
  In l (leavesOf value) -> forall mapping, snd l <> Nested mapping.
Proof.
  revert l. induction value as [v|r|f|mapping IH] using token_nested_ind;
    try (intros l [<-|[]]; discriminate).
  intros l. rewrite leavesOf_Nested. unfold leaves.
  intros ([key child] & Hentry & Hl)%in_flat_map.
  apply in_map_iff in Hl as (l' & <- & Hl'). simpl.
  rewrite Forall_forall in IH. exact (IH (key, child) Hentry l' Hl').
Qed.

(** The walk is the insertion of the leaves in declaration order. *)
Lemma addLeaves_app base ls ls' vc :
  addLeaves base (ls ++ ls') vc
  = match addLeaves base ls vc with
    | inl e => inl e
    | inr vc' => addLeaves base ls' vc'
    end.
Proof.
  revert vc. induction ls as [|l ls IH]; intros vc; simpl; [reflexivity|].
  destruct (addLeaf (base ++ fst l) (snd l) vc); [reflexivity | apply IH].
Qed.

Lemma addLeaves_under base key ls vc :
  addLeaves base (map (fun l => (key :: fst l, snd l)) ls) vc
  = addLeaves (base ++ [key]) ls vc.
Proof.
  revert vc. induction ls as [|l ls IH]; intros vc; simpl; [reflexivity|].
  rewrite <- app_assoc. simpl.
  destruct (addLeaf (base ++ key :: fst l) (snd l) vc); [reflexivity | apply IH].
Qed.

Lemma addValue_leaves value : forall path vc,
  addValue path value vc = addLeaves path (leavesOf value) vc.
Proof.
  induction value as [v|r|f|mapping IH] using token_nested_ind; intros path vc;
    try (simpl; rewrite app_nil_r;
         match goal with |- ?x = _ => now destruct x end).
  revert vc. induction IH as [|[key child] rest Hchild _ IHrest]; intros vc;
    [reflexivity|].
  simpl in Hchild.
  rewrite addValue_cons, leavesOf_Nested. unfold leaves. cbn [flat_map fst snd].
  rewrite addLeaves_app, addLeaves_under, <- (Hchild (path ++ [key]) vc).
  destruct (addValue (path ++ [key]) child vc) as [e|vc']; [reflexivity|].
  rewrite IHrest. now rewrite leavesOf_Nested.
Qed.
End Walk.

Section OrderedMapUpdates.
Context {V : Type}.
Implicit Types m : list (string * V).

Lemma keys_set key v m n :
  In n (OrderedMap.keys (OrderedMap.set key v m)) <-> In n (OrderedMap.keys m) \/ n = key.
Proof.
  induction m as [|[k w] rest IH]; simpl.
  - intuition congruence.
  - destruct (String.eqb_spec k key) as [->|Hne]; simpl.
    + intuition congruence.
    + rewrite IH. tauto.
Qed.

Lemma set_absent key v m :
  ~ In key (OrderedMap.keys m) -> OrderedMap.set key v m = m ++ [(key, v)].
Proof.
  induction m as [|[k w] rest IH]; simpl; intros H; [reflexivity|].
  destruct (String.eqb_spec k key) as [->|Hne]; [tauto|].
  now rewrite IH by tauto.
Qed.

Lemma get_set_same key v m : OrderedMap.get key (OrderedMap.set key v m) = Some v.
Proof.
  induction m as [|[k w] rest IH]; simpl.
  - now rewrite String.eqb_refl.
  - destruct (String.eqb_spec k key) as [->|Hne]; simpl.
    + now rewrite String.eqb_refl.
    + apply String.eqb_neq in Hne. now rewrite Hne.
Qed.

Lemma set_set key v w m :
  OrderedMap.set key v (OrderedMap.set key w m) = OrderedMap.set key v m.
Proof.
  induction m as [|[k u] rest IH]; simpl.
  - now rewrite String.eqb_refl.
  - destruct (String.eqb_spec k key) as [->|Hne]; simpl.
    + now rewrite String.eqb_refl.
    + apply String.eqb_neq in Hne. now rewrite Hne, IH.
Qed.

Lemma get_app_Some key v m m' :
  OrderedMap.get key m = Some v -> OrderedMap.get key (m ++ m') = Some v.
Proof.
  induction m as [|[k w] rest IH]; simpl; [discriminate|].
  now destruct (String.eqb k key).
Qed.

Lemma get_In_keys key m :
  OrderedMap.get key m <> None <-> In key (OrderedMap.keys m).
Proof.
  destruct (OrderedMap.get key m) eqn:E.
  - split; [intros _ | discriminate].
    apply get_Some_In in E. change key with (fst (key, v)). now apply in_map.
  - apply get_None_not_In in E. tauto.
Qed.
End OrderedMapUpdates.

Section Resolution.
Import VariableCollection.

Lemma insert_fields path v vc :
  mode (insert path v vc) = mode vc /\ prefix (insert path v vc) = prefix vc.
Proof. split; reflexivity. Qed.

Lemma names_insert path v vc n :
  In n (names (insert path v vc))
  <-> In n (names vc) \/ n = getFullName (prefix vc) path.
Proof. unfold names, insert. simpl. apply keys_set. Qed.

Lemma getByName_insert path v vc :
  getByName (insert path v vc) (getFullName (prefix vc) path)
  = Some (mkVariable (getFullName (prefix vc) path) v path).
Proof. unfold getByName, insert. simpl. apply get_set_same. Qed.

(** A successful insertion of a leaf keeps mode and prefix and adds the
    leaf's name. *)
Lemma addLeaf_inr path leaf vc vc' :
  (forall mapping, leaf <> Nested mapping) ->
  addLeaf path leaf vc = inr vc' ->
  exists v, vc' = insert path v vc.
Proof.
  intros Hleaf. destruct leaf as [v|r|f|mapping]; simpl.
  - intros [= <-]. eauto.
  - destruct (lookupReference vc r) as [x|]; [|discriminate]. intros [= <-]. eauto.
  - intros [= <-]. eauto.
  - now destruct (Hleaf mapping).
Qed.

Lemma addLeaves_inr base ls : forall vc vc',
  (forall l, In l ls -> forall mapping, snd l <> Nested mapping) ->
  addLeaves base ls vc = inr vc' ->
  mode vc' = mode vc /\ prefix vc' = prefix vc
  /\ forall n, In n (names vc')
               <-> In n (names vc)
                   \/ In n (map (fun l => getFullName (prefix vc) (base ++ fst l)) ls).
Proof.
  induction ls as [|l ls IH]; intros vc vc' Hleaves; simpl.
  - intros [= <-]. intuition.
  - destruct (addLeaf (base ++ fst l) (snd l) vc) as [e|vc1] eqn:E; [discriminate|].
    intros H. apply addLeaf_inr in E as [v ->]; [|apply Hleaves; now left].
    apply IH in H as (Hm & Hp & Hn); [|intros l' Hl'; apply Hleaves; now right].
    split; [assumption | split; [assumption|]].
    intros n. rewrite Hn, names_insert. simpl. intuition congruence.
Qed.

Lemma leaves_leaf tree l :
  In l (leaves tree) -> forall mapping, snd l <> Nested mapping.
Proof. rewrite <- leavesOf_Nested. apply leavesOf_leaf. Qed.

Lemma addFromObject_leaves tree vc :
  addFromObject tree vc = addLeaves [] (leaves tree) vc.
Proof. unfold addFromObject. now rewrite addValue_leaves, leavesOf_Nested. Qed.
End Resolution.

(** C8. When the walk of [addFromObject] reaches a leaf that is a reference,
    the collection then holds what an earlier merge inserted and the leaves
    declared before it. If the referenced name is among those, the leaf
    resolves to the value of the variable of that name and the walk goes
    on; if it is not, the result is the undefined-reference error, whatever
    is declared after the leaf. *)
Theorem reference_resolution_single_pass
    (tree : list (string * token)) (vc vc1 : VariableCollection.t)
    (before after : list (list string * token))
    (path : list string) (reference : string) :
  VariableCollection.leaves tree = before ++ (path, Reference reference) :: after ->
  VariableCollection.addLeaves [] before vc = inr vc1 ->
  let fullName := getFullName (VariableCollection.prefix vc) (split dot reference) in
  let declared :=
    In fullName (VariableCollection.names vc)
    \/ In fullName (VariableCollection.leafNames (VariableCollection.prefix vc) before) in
  (declared ->
   exists referenced,
     VariableCollection.getByName vc1 fullName = Some referenced
     /\ VariableCollection.getByName
          (VariableCollection.insert path (VariableCollection.value referenced) vc1)
          (getFullName (VariableCollection.prefix vc) path)
        = Some (VariableCollection.mkVariable
                  (getFullName (VariableCollection.prefix vc) path)
                  (VariableCollection.value referenced) path)
     /\ VariableCollection.addFromObject tree vc
        = VariableCollection.addLeaves [] after
            (VariableCollection.insert path (VariableCollection.value referenced) vc1))
  /\ (~ declared ->
      VariableCollection.addFromObject tree vc
      = inl (VariableCollection.UndefinedReference reference
               (VariableCollection.mode vc))).
Proof.
  intros Hleaves Hbefore fullName declared.
  assert (Hleaf : forall l, In l before ->
                    forall mapping, snd l <> Nested mapping).
  { intros l Hl. apply (leaves_leaf tree). rewrite Hleaves.
    apply in_or_app. now left. }
  destruct (addLeaves_inr [] before vc vc1 Hleaf Hbefore) as (Hmode & Hprefix & Hnames).
  assert (Hdeclared : declared <-> VariableCollection.getByName vc1 fullName <> None).
  { unfold VariableCollection.getByName. rewrite get_In_keys.
    symmetry. apply Hnames. }
  assert (Hwalk : VariableCollection.addFromObject tree vc
                  = match VariableCollection.getByName vc1 fullName with
                    | Some referenced =>
                        VariableCollection.addLeaves [] after
                          (VariableCollection.insert path
                             (VariableCollection.value referenced) vc1)
                    | None =>
                        inl (VariableCollection.UndefinedReference reference
                               (VariableCollection.mode vc))
                    end).
  { rewrite addFromObject_leaves, Hleaves, addLeaves_app, Hbefore. simpl.
    unfold VariableCollection.lookupReference. rewrite Hprefix, Hmode.
    fold fullName. now destruct (VariableCollection.getByName vc1 fullName). }
  split.
  - intros Hd. apply Hdeclared in Hd.
    destruct (VariableCollection.getByName vc1 fullName) as [referenced|] eqn:E;
      [|congruence].
    exists referenced. split; [reflexivity|]. split; [|exact Hwalk].
    rewrite <- Hprefix. apply getByName_insert.
  - intros Hd. rewrite Hwalk.
    destruct (VariableCollection.getByName vc1 fullName) eqn:E; [|reflexivity].
    exfalso. apply Hd, Hdeclared. congruence.
Qed.

Lemma reference_resolution_single_pass_witness :
  let vc := VariableCollection.empty "light" "colors" in
  let before :=
    [(["scale"; "black"], Literal (LString "#1b1f23"));
     (["scale"; "white"], Literal (LString "#ffffff"))] in
  let after := skipn 3 (VariableCollection.leaves Sample.tokens) in
  let vc1 :=
    VariableCollection.insert ["scale"; "white"] (RLiteral (LString "#ffffff"))
      (VariableCollection.insert ["scale"; "black"] (RLiteral (LString "#1b1f23")) vc) in
  VariableCollection.leaves Sample.tokens
  = before ++ (["fg"; "default"], Reference "scale.black") :: after
  /\ VariableCollection.addLeaves [] before vc = inr vc1
  /\ In "colors-scale.black" (VariableCollection.leafNames "colors" before)
  /\ exists referenced,
       VariableCollection.getByName vc1 "colors-scale.black" = Some referenced
       /\ VariableCollection.getByName
            (VariableCollection.insert ["fg"; "default"]
               (VariableCollection.value referenced) vc1)
            "colors-fg.default"
          = Some (VariableCollection.mkVariable "colors-fg.default"
                    (VariableCollection.value referenced) ["fg"; "default"])
       /\ VariableCollection.addFromObject Sample.tokens vc
          = VariableCollection.addLeaves [] after
              (VariableCollection.insert ["fg"; "default"]
                 (VariableCollection.value referenced) vc1).
Proof.
  intros vc before after vc1.
  assert (H1 : VariableCollection.leaves Sample.tokens
               = before ++ (["fg"; "default"], Reference "scale.black") :: after)
    by reflexivity.
  assert (H2 : VariableCollection.addLeaves [] before vc = inr vc1) by reflexivity.
  assert (H3 : In "colors-scale.black" (VariableCollection.leafNames "colors" before))
    by (simpl; tauto).
  split; [exact H1 | split; [exact H2 | split; [exact H3|]]].
  exact (proj1 (reference_resolution_single_pass Sample.tokens vc vc1 before after
                  ["fg"; "default"] "scale.black" H1 H2) (or_intror H3)).
Defined.

(** A reference to a name declared later fails, and that is the result of
    the whole call. *)
Example forward_reference_undefined :
  VariableCollection.addFromObject Sample.forward
    (VariableCollection.empty "light" "colors")
  = inl (VariableCollection.UndefinedReference "scale.black" "light").
Proof. reflexivity. Qed.

(** ** [tree()] after [addFromObject] *)

Section Rebuild.
Import VariableCollection.

Lemma distinct_NoDup (l : list string) : distinct l = true <-> NoDup l.
Proof.
  induction l as [|x l IH]; simpl.
  - split; [constructor | reflexivity].
  - rewrite andb_true_iff, negb_true_iff, IH, NoDup_cons_iff.
    assert (H : existsb (String.eqb x) l = false <-> ~ In x l).
    { rewrite <- (includes_In x l). now destruct (existsb (String.eqb x) l). }
    now rewrite H.
Qed.

Lemma wellFormedTree_inv (tree0 : list (string * token)) :
  wellFormedTree tree0 = true ->
  NoDup (map fst tree0)
  /\ forallb dotFree (map fst tree0) = true
  /\ Forall (fun entry => wellFormedValue (snd entry) = true) tree0.
Proof.
  unfold wellFormedTree. intros [[H1 H2]%andb_prop H3]%andb_prop.
  split; [now apply distinct_NoDup | split; [assumption|]].
  apply Forall_forall. now apply forallb_forall.
Qed.

Lemma wellFormedTree_intro (tree0 : list (string * token)) :
  NoDup (map fst tree0) ->
  forallb dotFree (map fst tree0) = true ->
  Forall (fun entry => wellFormedValue (snd entry) = true) tree0 ->
  wellFormedTree tree0 = true.
Proof.
  intros H1 H2 H3. unfold wellFormedTree.
  apply andb_true_intro. split; [apply andb_true_intro; split|].
  - now apply distinct_NoDup.
  - assumption.
  - apply forallb_forall. now apply Forall_forall.
Qed.

(** *** The leaves of a well-formed tree *)

Lemma leaves_cons key child rest :
  leaves ((key, child) :: rest)
  = map (under key) (leavesOf child) ++ leaves rest.
Proof. reflexivity. Qed.

Lemma leavesOf_nonempty value :
  wellFormedValue value = true -> leavesOf value <> [].
Proof.
  induction value as [v|r|f|mapping IH] using token_nested_ind; try discriminate.
  intros [Hne Hwf]%wellFormedValue_Nested. rewrite leavesOf_Nested.
  destruct mapping as [|[key child] rest]; [tauto|].
  apply wellFormedTree_inv in Hwf as (_ & _ & Hchildren).
  inversion Hchildren as [|? ? Hchild _]; subst.
  inversion IH as [|? ? IHchild _]; subst. simpl in Hchild, IHchild.
  rewrite leaves_cons. specialize (IHchild Hchild).
  destruct (leavesOf child); [tauto | simpl; discriminate].
Qed.

Lemma leaves_heads tree0 l :
  In l (leaves tree0) ->
  exists key tail, fst l = key :: tail /\ In key (map fst tree0).
Proof.
  unfold leaves. intros ([key child] & Hentry & Hl)%in_flat_map.
  apply in_map_iff in Hl as (l' & <- & _). simpl.
  exists key, (fst l'). split; [reflexivity|].
  change key with (fst (key, child)). now apply in_map.
Qed.

(** In a well-formed tree the leaves have distinct paths, free of dots. *)
Lemma wellFormed_paths value :
  wellFormedValue value = true ->
  NoDup (map fst (leavesOf value))
  /\ Forall (fun l => forallb dotFree (fst l) = true) (leavesOf value).
Proof.
  induction value as [v|r|f|mapping IH] using token_nested_ind;
    try (intros _; split; repeat constructor; simpl; tauto).
  intros [_ Hwf]%wellFormedValue_Nested. rewrite leavesOf_Nested.
  induction IH as [|[key child] rest IHchild _ IHrest]; [split; constructor|].
  apply wellFormedTree_inv in Hwf as (Hkeys & Hdots & Hchildren).
  simpl in Hkeys, Hdots, IHchild.
  apply NoDup_cons_iff in Hkeys as [Hkey Hkeys].
  apply andb_prop in Hdots as [Hdot Hdots].
  inversion Hchildren as [|? ? Hchild Hrest]; subst. simpl in Hchild.
  destruct (IHchild Hchild) as [Hnd Hfree].
  destruct IHrest as [Hnd' Hfree'].
  { now apply wellFormedTree_intro. }
  rewrite leaves_cons. split.
  - rewrite map_app. apply NoDup_app.
    + rewrite map_map. simpl. rewrite <- (map_map fst (cons key)).
      apply NoDup_map_NoDup_ForallPairs; [|assumption].
      intros p q _ _. congruence.
    + assumption.
    + intros p Hp Hq. apply in_map_iff in Hp as (l & <- & Hl).
      apply in_map_iff in Hl as (l' & <- & _). simpl in Hq.
      apply in_map_iff in Hq as (l2 & Hl2 & Hin2).
      apply leaves_heads in Hin2 as (k2 & tail & Hfst & Hk2).
      rewrite Hfst in Hl2. injection Hl2 as -> _. contradiction.
  - apply Forall_app. split; [|assumption].
    apply Forall_forall. intros l Hl. apply in_map_iff in Hl as (l' & <- & Hl').
    simpl. rewrite Hdot. rewrite Forall_forall in Hfree. now apply Hfree.
Qed.

Lemma wellFormedTree_paths tree0 :
  wellFormedTree tree0 = true ->
  NoDup (map fst (leaves tree0))
  /\ Forall (fun l => forallb dotFree (fst l) = true) (leaves tree0).
Proof.
  intros Hwf. destruct tree0 as [|entry rest]; [split; constructor|].
  rewrite <- leavesOf_Nested. apply wellFormed_paths.
  apply wellFormedValue_Nested. split; [discriminate | assumption].
Qed.

(** So the leaves of a well-formed tree get distinct names. *)
Lemma wellFormedTree_names prefix tree0 :
  wellFormedTree tree0 = true -> NoDup (leafNames prefix (leaves tree0)).
Proof.
  intros Hwf. destruct (wellFormedTree_paths tree0 Hwf) as [Hnd Hfree].
  unfold leafNames. rewrite <- (map_map fst (getFullName prefix)).
  apply NoDup_map_NoDup_ForallPairs; [|assumption].
  intros p q Hp Hq. apply in_map_iff in Hp as (l & <- & Hl).
  apply in_map_iff in Hq as (l' & <- & Hl').
  rewrite Forall_forall in Hfree.
  destruct (leaves_heads tree0 l Hl) as (k & tail & Hk & _).
  destruct (leaves_heads tree0 l' Hl') as (k' & tail' & Hk' & _).
  apply getFullName_inj_path; try (now apply Hfree); congruence.
Qed.
End Rebuild.

Section FlatMap.
Import VariableCollection.

(** *** The flat map after the walk *)

Lemma get_entries_after_walk ls : forall vc0 vc,
  (forall l, In l ls -> forall mapping, snd l <> Nested mapping) ->
  addLeaves [] ls vc0 = inr vc ->
  NoDup (names vc0 ++ leafNames (prefix vc0) ls) ->
  prefix vc = prefix vc0
  /\ vars vc = vars vc0 ++ map (entryOf vc) ls
  /\ forall l reference,
       In l ls -> snd l = Reference reference ->
       lookupReference vc reference <> None.
Proof.
  induction ls as [|[p leaf] ls IH]; intros vc0 vc Hleaves; simpl.
  - intros [= <-] _. rewrite app_nil_r. repeat split. intros l r [].
  - destruct (addLeaf p leaf vc0) as [e|vc1] eqn:E; [discriminate|].
    intros Hwalk Hnd.
    assert (Hfresh : ~ In (getFullName (prefix vc0) p) (names vc0)).
    { apply NoDup_remove_2 in Hnd. intros H. apply Hnd, in_or_app. now left. }
    assert (Hstep : exists v,
               vc1 = insert p v vc0
               /\ forall vc', prefix vc' = prefix vc0 ->
                              (forall n x, getByName vc0 n = Some x ->
                                           getByName vc' n = Some x) ->
                              resolvedLeaf vc' leaf = v
                              /\ forall reference, leaf = Reference reference ->
                                   lookupReference vc' reference <> None).
    { destruct leaf as [v|r|f|mapping]; simpl in E.
      - injection E as <-. exists (RLiteral v). repeat split. discriminate.
      - destruct (lookupReference vc0 r) as [x|] eqn:Ex; [|discriminate].
        injection E as <-. exists (value x). split; [reflexivity|].
        intros vc' Hp Hget.
        assert (Hx : lookupReference vc' r = Some x).
        { unfold lookupReference in *. rewrite Hp. now apply Hget. }
        split; [simpl; now rewrite Hx|].
        intros r' [= <-]. rewrite Hx. discriminate.
      - injection E as <-. exists (RDeferred f). repeat split. discriminate.
      - exfalso. apply (Hleaves (p, Nested mapping) (or_introl eq_refl) mapping).
        reflexivity. }
    destruct Hstep as (v & -> & Hv).
    assert (Hvars1 : vars (insert p v vc0)
                     = vars vc0 ++ [(getFullName (prefix vc0) p,
                                     mkVariable (getFullName (prefix vc0) p) v p)]).
    { unfold insert. simpl. now apply set_absent. }
    destruct (IH (insert p v vc0) vc) as (Hp & Hvars & Hrefs).
    + intros l Hl. apply Hleaves. now right.
    + assumption.
    + unfold names. rewrite Hvars1. unfold OrderedMap.keys. rewrite map_app.
      simpl. rewrite <- app_assoc. exact Hnd.
    + simpl in Hp. rewrite Hvars1, <- app_assoc in Hvars. simpl in Hvars.
      destruct (Hv vc Hp) as [Hleaf Hthis].
      { intros n x Hn. unfold getByName in *. rewrite Hvars.
        now apply get_app_Some. }
      split; [assumption|]. split.
      * rewrite Hvars. do 2 f_equal. unfold entryOf. simpl.
        now rewrite Hp, Hleaf.
      * intros l r [<-|Hl] Hr; [now apply Hthis | now apply (Hrefs l)].
Qed.

(** *** Setting the values back at their paths *)

Lemma setPaths_app ls ls' root :
  setPaths (ls ++ ls') root = setPaths ls' (setPaths ls root).
Proof. apply fold_left_app. Qed.

Lemma setPath_under key path v root :
  path <> [] ->
  setPath (key :: path) v root
  = OrderedMap.set key (Object (setPath path v (fieldsAt key root))) root.
Proof. destruct path; [tauto | reflexivity]. Qed.

Lemma fieldsAt_set key inner root :
  fieldsAt key (OrderedMap.set key (Object inner) root) = inner.
Proof. unfold fieldsAt. now rewrite get_set_same. Qed.

(** Values set at paths below one key build one object under that key. *)
Lemma setPaths_under key ls : forall l root,
  (forall l', In l' (l :: ls) -> fst l' <> []) ->
  setPaths (map (under key) (l :: ls)) root
  = OrderedMap.set key (Object (setPaths (l :: ls) (fieldsAt key root))) root.
Proof.
  induction ls as [|l1 ls IH]; intros l root Hpaths.
  - simpl. apply setPath_under, Hpaths. now left.
  - change (setPaths (map (under key) (l :: l1 :: ls)) root)
      with (setPaths (map (under key) (l1 :: ls))
              (setPath (key :: fst l) (snd l) root)).
    rewrite IH by (intros l' Hl'; apply Hpaths; now right).
    rewrite setPath_under by (apply Hpaths; now left).
    now rewrite fieldsAt_set, set_set.
Qed.
End FlatMap.

Section RoundTrip.
Import VariableCollection.
Variable vc : VariableCollection.t.

Lemma resolvedAt_under key l : resolvedAt vc (under key l) = under key (resolvedAt vc l).
Proof. reflexivity. Qed.

Lemma map_resolvedAt_under key ls :
  map (resolvedAt vc) (map (under key) ls) = map (under key) (map (resolvedAt vc) ls).
Proof. rewrite !map_map. apply map_ext. intros l. apply resolvedAt_under. Qed.

Lemma rebuilds_leaf (leaf : token) :
  leavesOf leaf = [([], leaf)] ->
  resolvedValue vc leaf = Leaf (resolvedLeaf vc leaf) ->
  rebuilds vc leaf.
Proof.
  intros Hleaves Hvalue _ key root Hfresh. rewrite Hleaves, Hvalue. simpl.
  now apply set_absent.
Qed.

Lemma rebuilds_mapping (mapping : list (string * token)) :
  Forall (fun entry => rebuilds vc (snd entry)) mapping ->
  wellFormedTree mapping = true ->
  forall root,
    (forall key, In key (map fst mapping) -> ~ In key (OrderedMap.keys root)) ->
    setPaths (map (resolvedAt vc) (leaves mapping)) root
    = root ++ resolvedTree vc mapping.
Proof.
  induction 1 as [|[key child] rest Hchild _ IHrest]; intros Hwf root Hfresh.
  - simpl. now rewrite app_nil_r.
  - apply wellFormedTree_inv in Hwf as (Hkeys & Hdots & Hchildren).
    simpl in Hkeys, Hdots, Hchild.
    apply NoDup_cons_iff in Hkeys as [Hkey Hkeys].
    apply andb_prop in Hdots as [_ Hdots].
    inversion Hchildren as [|? ? Hwfchild Hwfrest]; subst. simpl in Hwfchild.
    rewrite leaves_cons, map_app, setPaths_app, map_resolvedAt_under.
    rewrite (Hchild Hwfchild key root) by (apply Hfresh; now left).
    rewrite IHrest.
    + unfold resolvedTree. simpl. now rewrite <- app_assoc.
    + now apply wellFormedTree_intro.
    + intros k Hk. unfold OrderedMap.keys. rewrite map_app, in_app_iff. simpl.
      intros [H|[<-|[]]]; [|contradiction].
      apply (Hfresh k); [now right | assumption].
Qed.

Lemma rebuilds_all (value : token) : rebuilds vc value.
Proof.
  induction value as [v|r|f|mapping IH] using token_nested_ind;
    try (now apply rebuilds_leaf).
  intros [Hne Hwf]%wellFormedValue_Nested key root Hfresh.
  rewrite leavesOf_Nested, resolvedValue_Nested.
  assert (Hpaths : forall l, In l (map (resolvedAt vc) (leaves mapping)) ->
                             fst l <> []).
  { intros l (l' & <- & Hl')%in_map_iff. simpl.
    apply leaves_heads in Hl' as (k & tail & -> & _). discriminate. }
  destruct (map (resolvedAt vc) (leaves mapping)) as [|l ls] eqn:E.
  - exfalso. apply map_eq_nil in E. rewrite <- leavesOf_Nested in E.
    revert E. apply leavesOf_nonempty. now apply wellFormedValue_Nested.
  - rewrite setPaths_under by assumption. rewrite <- E.
    assert (Hnone : fieldsAt key root = []).
    { unfold fieldsAt. now rewrite (proj2 (get_None_not_In key root) Hfresh). }
    rewrite Hnone, (rebuilds_mapping mapping IH Hwf []) by (intros k _ []).
    now apply set_absent.
Qed.

(** The flat map of the leaves is read back as their paths and values. *)
Lemma setPaths_entries ls : forall root,
  fold_left (fun root entry => setPath (path (snd entry)) (value (snd entry)) root)
    (map (entryOf vc) ls) root
  = setPaths (map (resolvedAt vc) ls) root.
Proof.
  unfold setPaths. induction ls as [|l ls IH]; intros root; [reflexivity | apply IH].
Qed.

(** When every reference of a value is defined in the collection, the object
    the value stands for has its shape. *)
Lemma resolvesTo_resolvedValue (value : token) :
  (forall l reference,
      In l (leavesOf value) -> snd l = Reference reference ->
      lookupReference vc reference <> None) ->
  resolvesTo vc value (resolvedValue vc value).
Proof.
  induction value as [v|r|f|mapping IH] using token_nested_ind; intros Hrefs.
  - constructor.
  - simpl. destruct (lookupReference vc r) as [x|] eqn:E.
    + now constructor.
    + exfalso. apply (Hrefs ([], Reference r) r); simpl; auto.
  - constructor.
  - rewrite resolvedValue_Nested. constructor.
    rewrite leavesOf_Nested in Hrefs. unfold resolvedTree.
    induction IH as [|[key child] rest IHchild _ IHrest]; [constructor|].
    simpl. constructor.
    + split; [reflexivity|]. simpl in IHchild. simpl. apply IHchild.
      intros l r Hl Hr. apply (Hrefs (under key l) r); [|assumption].
      rewrite leaves_cons. apply in_or_app. left. now apply in_map.
    + apply IHrest. intros l r Hl Hr. apply (Hrefs l r); [|assumption].
      rewrite leaves_cons. apply in_or_app. now right.
Qed.
End RoundTrip.

(** The round trip, once the walk has succeeded. *)
Lemma round_trip_after_walk
    (mode prefix : string) (tokens : list (string * token))
    (vc : VariableCollection.t) :
  VariableCollection.wellFormedTree tokens = true ->
  VariableCollection.addFromObject tokens (VariableCollection.empty mode prefix)
  = inr vc ->
  VariableCollection.resolvesTo vc (Nested tokens)
    (Object (VariableCollection.tree vc)).
Proof.
  intros Hwf Hwalk. rewrite addFromObject_leaves in Hwalk.
  destruct (get_entries_after_walk (VariableCollection.leaves tokens)
              (VariableCollection.empty mode prefix) vc)
    as (Hprefix & Hvars & Hrefs).
  - apply leaves_leaf.
  - assumption.
  - simpl. now apply wellFormedTree_names.
  - simpl in Hvars.
    assert (Htree : VariableCollection.tree vc
                    = VariableCollection.resolvedTree vc tokens).
    { assert (Hall : Forall (fun entry => VariableCollection.rebuilds vc (snd entry))
                       tokens)
        by (apply Forall_forall; intros entry _; apply rebuilds_all).
      change (VariableCollection.resolvedTree vc tokens)
        with ([] ++ VariableCollection.resolvedTree vc tokens).
      rewrite <- (rebuilds_mapping vc tokens Hall Hwf [] (fun key _ H => H)).
      unfold VariableCollection.tree. rewrite Hvars. apply setPaths_entries. }
    rewrite Htree, <- resolvedValue_Nested.
    apply resolvesTo_resolvedValue. now rewrite leavesOf_Nested.
Qed.

(** The walk succeeds when every reference is declared before its use. *)
Lemma walk_succeeds ls : forall seen vc0,
  (forall l, In l ls -> forall mapping, snd l <> Nested mapping) ->
  VariableCollection.referencesDeclared (VariableCollection.prefix vc0) seen ls = true ->
  (forall n, In n seen -> In n (VariableCollection.names vc0)) ->
  exists vc, VariableCollection.addLeaves [] ls vc0 = inr vc.
Proof.
  induction ls as [|[p leaf] ls IH]; intros seen vc0 Hleaves; simpl.
  - intros _ _. now exists vc0.
  - intros [Hthis Hrest]%andb_prop Hseen.
    assert (Hstep : exists v,
               VariableCollection.addLeaf p leaf vc0
               = inr (VariableCollection.insert p v vc0)).
    { destruct leaf as [v|r|f|mapping]; simpl.
      - eauto.
      - unfold VariableCollection.lookupReference, VariableCollection.getByName.
        apply includes_In, Hseen, get_In_keys in Hthis.
        destruct (OrderedMap.get _ (VariableCollection.vars vc0)) as [x|];
          [eauto | congruence].
      - eauto.
      - exfalso. apply (Hleaves (p, Nested mapping) (or_introl eq_refl) mapping).
        reflexivity. }
    destruct Hstep as [v ->].
    apply (IH (getFullName (VariableCollection.prefix vc0) p :: seen)).
    + intros l Hl. apply Hleaves. now right.
    + exact Hrest.
    + intros n Hn. apply names_insert. destruct Hn as [<-|Hn]; [now right|].
      left. now apply Hseen.
Qed.

(** C7. For a well-formed token tree (at every level distinct keys without
    dots, no empty nested mapping, every reference declared before its use),
    flattening it into an empty Variable Collection with [addFromObject]
    succeeds, and [tree()] then gives an object of the same shape: the same
    keys in the same order and the same leaves, references replaced by their
    resolved values. *)
Theorem tree_round_trip (mode prefix : string) (tokens : list (string * token)) :
  VariableCollection.wellFormedTree tokens = true ->
  VariableCollection.referencesDeclared prefix [] (VariableCollection.leaves tokens)
  = true ->
  exists vc,
    VariableCollection.addFromObject tokens (VariableCollection.empty mode prefix)
    = inr vc
    /\ VariableCollection.resolvesTo vc (Nested tokens)
         (Object (VariableCollection.tree vc)).
Proof.
  intros Hwf Hrefs.
  destruct (walk_succeeds (VariableCollection.leaves tokens) []
              (VariableCollection.empty mode prefix)) as [vc Hwalk].
  - apply leaves_leaf.
  - exact Hrefs.
  - intros n [].
  - rewrite <- addFromObject_leaves in Hwalk. exists vc. split; [exact Hwalk|].
    now apply round_trip_after_walk with (mode := mode) (prefix := prefix).
Qed.

Lemma tree_round_trip_witness :
  VariableCollection.wellFormedTree Sample.tokens = true
  /\ VariableCollection.referencesDeclared "colors" []
       (VariableCollection.leaves Sample.tokens) = true
  /\ exists vc,
       VariableCollection.addFromObject Sample.tokens
         (VariableCollection.empty "light" "colors") = inr vc
       /\ VariableCollection.resolvesTo vc (Nested Sample.tokens)
            (Object (VariableCollection.tree vc)).
Proof.
  split; [reflexivity | split; [reflexivity|]].
  exact (tree_round_trip "light" "colors" Sample.tokens eq_refl eq_refl).
Defined.

(** Arrays are opaque leaves (section 4.2), so the elements of an array are
    no variables and a reference to one is undefined. *)
Example array_element_reference_undefined :
  VariableCollection.addFromObject Sample.element
    (VariableCollection.empty "light" "colors")
  = inl (VariableCollection.UndefinedReference "scale.gray.1" "light").
Proof. reflexivity. Qed.

(** What [tree()] gives on the sample: every reference has become the
    literal it points to. *)
Example tree_of_sample :
  exists vc,
    VariableCollection.addFromObject Sample.tokens
      (VariableCollection.empty "light" "colors") = inr vc
    /\ VariableCollection.tree vc
       = [("scale", Object [("black", Leaf (RLiteral (LString "#1b1f23")));
                            ("white", Leaf (RLiteral (LString "#ffffff")))]);
          ("fg", Object [("default", Leaf (RLiteral (LString "#1b1f23")));
                         ("onEmphasis", Leaf (RLiteral (LString "#ffffff")))]);
          ("btn", Object [("hoverBg", Leaf (RLiteral (LString "#f3f4f6")));
                          ("shadow",
                           Leaf (RDeferred (fun _ => LString "0 1px 0 rgba(27,31,35,0.04)")));
                          ("primary",
                           Object [("text", Leaf (RLiteral (LString "#ffffff")));
                                   ("bg", Leaf (RLiteral (LString "#2ea44f")))])])].
Proof. eexists. split; reflexivity. Qed.

(** An empty nested mapping has no leaf and is lost by the round trip: it is
    not a well-formed tree. *)
Example empty_mapping_is_lost :
  VariableCollection.wellFormedTree [("a", Nested [])] = false
  /\ exists vc,
       VariableCollection.addFromObject [("a", Nested [])]
         (VariableCollection.empty "light" "colors") = inr vc
       /\ VariableCollection.tree vc = [].
Proof. split; [reflexivity|]. eexists. split; reflexivity. Qed.

(** * Part III: further properties of the build script *)

(** ** When a ledger is accepted *)

Section Acceptance.
Import Build Ledger.
Variable validateVar : string -> ModeCollection.t -> string -> list message.
Variable ledger : replacementMap.
Variable collection : ModeCollection.t.
Variable inputFile : string.

Lemma flat_map_nil {A B : Type} (f : A -> list B) (l : list A) :
  flat_map f l = [] <-> forall x, In x l -> f x = [].
Proof.
  induction l as [|a l IH]; simpl.
  - tauto.
  - split.
    + intros [Ha Hl]%app_eq_nil x [<-|Hx]; [assumption | now apply IH].
    + intros H. rewrite (H a) by now left. apply IH. intros x Hx. apply H. now right.
Qed.

Lemma checkReplacementVar_nil original replacementVar :
  checkReplacementVar ledger collection inputFile original replacementVar [] = []
  <-> exists s,
        replacementVar = JString s
        /\ existsInCollection collection s = true
        /\ ~ In s (OrderedMap.keys ledger).
Proof.
  split.
  - destruct replacementVar; try discriminate.
    rewrite checkReplacementVar_string.
    destruct (existsInCollection collection s) eqn:Hex; simpl; [|discriminate].
    destruct (existsb (String.eqb s) (OrderedMap.keys ledger)) eqn:Hkey;
      [discriminate|].
    intros _. exists s. split; [reflexivity | split; [assumption|]].
    intros Hin%includes_In. congruence.
  - intros (s & -> & Hex & Hkey). rewrite checkReplacementVar_string, Hex. simpl.
    destruct (existsb (String.eqb s) (OrderedMap.keys ledger)) eqn:E; [|reflexivity].
    apply includes_In in E. contradiction.
Qed.

Lemma entryErrors_nil entry :
  entryErrors validateVar ledger collection inputFile entry = []
  <-> Script.accepted validateVar ledger collection inputFile entry.
Proof.
  unfold entryErrors, Script.accepted. split.
  - intros [Hvar Htargets]%app_eq_nil. split; [assumption|].
    intros t Ht. apply checkReplacementVar_nil with (original := fst entry).
    now apply (proj1 (flat_map_nil _ _) Htargets).
  - intros [Hvar Htargets]. rewrite Hvar. simpl.
    apply flat_map_nil. intros t Ht. apply checkReplacementVar_nil.
    now apply Htargets.
Qed.

Lemma validations_nil :
  validations validateVar ledger collection inputFile = []
  <-> forall entry, In entry ledger ->
        Script.accepted validateVar ledger collection inputFile entry.
Proof.
  rewrite validations_flat_map, flat_map_nil. split.
  - intros H entry Hin. now apply entryErrors_nil, H.
  - intros H entry Hin. now apply entryErrors_nil, H.
Qed.

Lemma writeReplacements_cases outputDir :
  writeReplacements inputFile outputDir collection validateVar (Parsed ledger)
  = match validations validateVar ledger collection inputFile with
    | [] => Wrote outputDir (ModeCollection.type collection ++ ".json") ledger
    | errors => Exited 1 (Violations errors)
    end.
Proof.
  unfold writeReplacements.
  now destruct (validations validateVar ledger collection inputFile).
Qed.
End Acceptance.

(** X1. [writeReplacements] writes the output file exactly when no entry of
    the ledger is at fault: every original passes the validator of the mode,
    and every replacement target is a string that exists in the Mode
    Collection and is no key of the ledger. In any other case it exits with
    status 1. *)
Theorem ledger_written_iff_accepted
    (validateVar : string -> ModeCollection.t -> string -> list Build.message)
    (ledger : Build.replacementMap) (collection : ModeCollection.t)
    (inputFile outputDir : string) :
  let allAccepted :=
    forall entry, In entry ledger ->
      Script.accepted validateVar ledger collection inputFile entry in
  (Build.writeReplacements inputFile outputDir collection validateVar
     (Build.Parsed ledger)
   = Build.Wrote outputDir (ModeCollection.type collection ++ ".json") ledger
   <-> allAccepted)
  /\ (~ allAccepted ->
      Build.writeReplacements inputFile outputDir collection validateVar
        (Build.Parsed ledger)
      = Build.Exited 1
          (Build.Violations
             (Build.validations validateVar ledger collection inputFile))).
Proof.
  intros allAccepted. rewrite writeReplacements_cases.
  pose proof (validations_nil validateVar ledger collection inputFile) as Hnil.
  fold allAccepted in Hnil.
  destruct (Build.validations validateVar ledger collection inputFile) as [|e errors].
  - split; [|tauto]. split; [intros _; now apply Hnil | reflexivity].
  - split; [|reflexivity]. split; [discriminate|].
    intros H. apply Hnil in H. discriminate H.
Qed.

Lemma ledger_written_iff_accepted_witness :
  let ledger := [("fg.default", JString "scale.black")] in
  (forall entry, In entry ledger ->
     Script.accepted Build.validateDeprecatedVar ledger Sample.colors
       Sample.inputFile entry)
  /\ Build.writeReplacements Sample.inputFile "dist/deprecated" Sample.colors
       Build.validateDeprecatedVar (Build.Parsed ledger)
     = Build.Wrote "dist/deprecated" "colors.json" ledger.
Proof.
  intros ledger.
  assert (H : forall entry, In entry ledger ->
                Script.accepted Build.validateDeprecatedVar ledger Sample.colors
                  Sample.inputFile entry).
  { intros entry [<-|[]]. split; [reflexivity|].
    intros t [<-|[]]. exists "scale.black".
    split; [reflexivity | split; [reflexivity|]].
    simpl. intros [H|[]]. discriminate H. }
  split; [exact H|].
  exact (proj2 (proj1 (ledger_written_iff_accepted Build.validateDeprecatedVar
                         ledger Sample.colors Sample.inputFile "dist/deprecated")) H).
Defined.

(** X2. Whatever the validator of originals, a ledger with an entry whose
    replacement names a key of the ledger, the entry's own key included, is
    never written: [writeReplacements] exits with status 1. *)
Theorem chain_rejects_ledger
    (validateVar : string -> ModeCollection.t -> string -> list Build.message)
    (ledger : Build.replacementMap) (collection : ModeCollection.t)
    (inputFile outputDir original target : string) (replacement : json) :
  In (original, replacement) ledger ->
  In (JString target) (Ledger.replacementVars replacement) ->
  In target (OrderedMap.keys ledger) ->
  Build.validations validateVar ledger collection inputFile <> []
  /\ Build.writeReplacements inputFile outputDir collection validateVar
       (Build.Parsed ledger)
     = Build.Exited 1
         (Build.Violations
            (Build.validations validateVar ledger collection inputFile)).
Proof.
  intros Hentry Htarget Hkey.
  assert (Hne : Build.validations validateVar ledger collection inputFile <> []).
  { intros Hnil.
    destruct (proj1 (validations_nil validateVar ledger collection inputFile) Hnil
                (original, replacement) Hentry) as [_ Htargets].
    destruct (Htargets (JString target) Htarget) as (s & [= <-] & _ & Hfree).
    contradiction. }
  split; [exact Hne|]. rewrite writeReplacements_cases.
  now destruct (Build.validations validateVar ledger collection inputFile).
Qed.

Lemma chain_rejects_ledger_witness :
  let ledger := [("scale.black", JString "scale.black")] in
  In ("scale.black", JString "scale.black") ledger
  /\ In (JString "scale.black") (Ledger.replacementVars (JString "scale.black"))
  /\ In "scale.black" (OrderedMap.keys ledger)
  /\ Build.writeReplacements Sample.inputFile "dist/deprecated" Sample.colors
       Build.validateDeprecatedVar (Build.Parsed ledger)
     = Build.Exited 1
         (Build.Violations
            (Build.validations Build.validateDeprecatedVar ledger
               Sample.colors Sample.inputFile)).
Proof.
  intros ledger.
  assert (H1 : In ("scale.black", JString "scale.black") ledger) by (now left).
  assert (H2 : In (JString "scale.black")
                 (Ledger.replacementVars (JString "scale.black"))) by (now left).
  assert (H3 : In "scale.black" (OrderedMap.keys ledger)) by (now left).
  split; [exact H1 | split; [exact H2 | split; [exact H3|]]].
  exact (proj2 (chain_rejects_ledger Build.validateDeprecatedVar ledger Sample.colors
                  Sample.inputFile "dist/deprecated" "scale.black" "scale.black"
                  (JString "scale.black") H1 H2 H3)).
Defined.

(** ** The two ledgers of a type *)

(** Every variable fails exactly one of the two validators. *)
Lemma validators_exclusive (variable : string) (collection : ModeCollection.t)
    (deprecatedFile removedFile : string) :
  length (Build.validateDeprecatedVar variable collection deprecatedFile)
  + length (Build.validateRemovedVar variable collection removedFile) = 1.
Proof.
  rewrite validateDeprecatedVar_cases, validateRemovedVar_cases.
  now destruct (Build.existsInCollection collection variable).
Qed.

Lemma original_error_rejects
    (validateVar : string -> ModeCollection.t -> string -> list Build.message)
    (ledger : Build.replacementMap) (collection : ModeCollection.t)
    (inputFile original : string) (replacement : json) :
  In (original, replacement) ledger ->
  validateVar original collection inputFile <> [] ->
  Build.validations validateVar ledger collection inputFile <> [].
Proof.
  intros Hentry Hvar Hnil.
  destruct (proj1 (validations_nil validateVar ledger collection inputFile) Hnil
              (original, replacement) Hentry) as [H _].
  contradiction.
Qed.

Lemma writeModeOutputReplacements_cases
    (deprecatedFile removedFile deprecatedDir removedDir : string)
    (collection : ModeCollection.t) (deprecated removed : Build.replacementMap) :
  Script.writeModeOutputReplacements deprecatedFile removedFile deprecatedDir removedDir
    collection (Build.Parsed deprecated) (Build.Parsed removed)
  = match Build.validations Build.validateDeprecatedVar deprecated collection
            deprecatedFile,
          Build.validations Build.validateRemovedVar removed collection removedFile with
    | [], [] =>
        Script.Scheduled
          [(deprecatedDir, (ModeCollection.type collection ++ ".json")%string, deprecated);
           (removedDir, (ModeCollection.type collection ++ ".json")%string, removed)]
    | [], errors => Script.Exit 1 (Build.Violations errors)
    | errors, _ => Script.Exit 1 (Build.Violations errors)
    end.
Proof.
  unfold Script.writeModeOutputReplacements. rewrite !writeReplacements_cases.
  destruct (Build.validations Build.validateDeprecatedVar deprecated collection
              deprecatedFile); [|reflexivity].
  now destruct (Build.validations Build.validateRemovedVar removed collection
                  removedFile).
Qed.

(** X3. A name that is a key of both [deprecated.json] and [removed.json] of
    a type always ends the build: it exists or it does not, so one of the
    two validators reports it and [writeModeOutput] exits with status 1,
    with nothing written for either ledger. *)
Theorem shared_key_exits
    (deprecatedFile removedFile deprecatedDir removedDir : string)
    (collection : ModeCollection.t) (deprecated removed : Build.replacementMap)
    (key : string) (replacement replacement' : json) :
  In (key, replacement) deprecated ->
  In (key, replacement') removed ->
  exists errors,
    errors <> []
    /\ Script.writeModeOutputReplacements deprecatedFile removedFile
         deprecatedDir removedDir collection
         (Build.Parsed deprecated) (Build.Parsed removed)
       = Script.Exit 1 (Build.Violations errors).
Proof.
  intros Hdep Hrem. rewrite writeModeOutputReplacements_cases.
  pose proof (validators_exclusive key collection deprecatedFile removedFile) as Hone.
  destruct (Build.validations Build.validateDeprecatedVar deprecated collection
              deprecatedFile) as [|e errors] eqn:Edep.
  - destruct (Build.validations Build.validateRemovedVar removed collection
                removedFile) as [|e errors] eqn:Erem.
    + exfalso.
      destruct (Build.validateDeprecatedVar key collection deprecatedFile) eqn:Ed.
      * apply (original_error_rejects Build.validateRemovedVar removed collection
                 removedFile key replacement' Hrem); [|assumption].
        destruct (Build.validateRemovedVar key collection removedFile);
          [discriminate Hone | discriminate].
      * apply (original_error_rejects Build.validateDeprecatedVar deprecated
                 collection deprecatedFile key replacement Hdep); [|assumption].
        rewrite Ed. discriminate.
    + exists (e :: errors). split; [discriminate | reflexivity].
  - exists (e :: errors). split; [discriminate | reflexivity].
Qed.

Lemma shared_key_exits_witness :
  let deprecated := [("fg.default", JNull)] in
  let removed := [("fg.default", JNull)] in
  In ("fg.default", JNull) deprecated
  /\ In ("fg.default", JNull) removed
  /\ exists errors,
       errors <> []
       /\ Script.writeModeOutputReplacements Sample.inputFile "data/colors/removed.json"
            "dist/deprecated" "dist/removed" Sample.colors
            (Build.Parsed deprecated) (Build.Parsed removed)
          = Script.Exit 1 (Build.Violations errors).
Proof.
  intros deprecated removed.
  assert (H1 : In ("fg.default", JNull) deprecated) by (now left).
  assert (H2 : In ("fg.default", JNull) removed) by (now left).
  split; [exact H1 | split; [exact H2|]].
  exact (shared_key_exits Sample.inputFile "data/colors/removed.json"
           "dist/deprecated" "dist/removed" Sample.colors deprecated removed
           "fg.default" JNull JNull H1 H2).
Defined.

(** X4. When [deprecated.json] has a violation, [writeModeOutput] exits on
    it: the log holds the violations of the deprecated ledger only, and
    what [removed.json] holds (nothing, malformed text, violations of its
    own) makes no difference. *)
Theorem deprecated_violations_first
    (deprecatedFile removedFile deprecatedDir removedDir : string)
    (collection : ModeCollection.t) (deprecated : Build.replacementMap)
    (removed : Build.input) :
  Build.validations Build.validateDeprecatedVar deprecated collection deprecatedFile
  <> [] ->
  Script.writeModeOutputReplacements deprecatedFile removedFile deprecatedDir removedDir
    collection (Build.Parsed deprecated) removed
  = Script.Exit 1
      (Build.Violations
         (Build.validations Build.validateDeprecatedVar deprecated collection
            deprecatedFile)).
Proof.
  intros Hne. unfold Script.writeModeOutputReplacements.
  rewrite writeReplacements_cases.
  now destruct (Build.validations Build.validateDeprecatedVar deprecated collection
                  deprecatedFile).
Qed.

Lemma deprecated_violations_first_witness :
  let deprecated := [("fg.old", JNull)] in
  Build.validations Build.validateDeprecatedVar deprecated Sample.colors Sample.inputFile
  <> []
  /\ Script.writeModeOutputReplacements Sample.inputFile "data/colors/removed.json"
       "dist/deprecated" "dist/removed" Sample.colors
       (Build.Parsed deprecated) (Build.Malformed "Unexpected end of JSON input")
     = Script.Exit 1
         (Build.Violations
            (Build.validations Build.validateDeprecatedVar deprecated
               Sample.colors Sample.inputFile)).
Proof.
  intros deprecated.
  assert (H : Build.validations Build.validateDeprecatedVar deprecated
                Sample.colors Sample.inputFile <> []) by discriminate.
  split; [exact H|].
  exact (deprecated_violations_first Sample.inputFile "data/colors/removed.json"
           "dist/deprecated" "dist/removed" Sample.colors deprecated
           (Build.Malformed "Unexpected end of JSON input") H).
Defined.

(** ** What the verdict depends on *)

Section Dependence.
Import Build Ledger.

Lemma checkReplacementVar_ext ledger ledger' collection collection' inputFile
    original replacementVar :
  OrderedMap.keys ledger = OrderedMap.keys ledger' ->
  (forall name, existsInCollection collection name
                = existsInCollection collection' name) ->
  checkReplacementVar ledger collection inputFile original replacementVar []
  = checkReplacementVar ledger' collection' inputFile original replacementVar [].
Proof.
  intros Hkeys Hex. destruct replacementVar; try reflexivity.
  now rewrite !checkReplacementVar_string, Hkeys, Hex.
Qed.

Lemma validator_ext validateVar collection collection' inputFile original :
  isLedgerValidator validateVar ->
  (forall name, existsInCollection collection name
                = existsInCollection collection' name) ->
  validateVar original collection inputFile
  = validateVar original collection' inputFile.
Proof.
  intros [-> | ->] Hex.
  - now rewrite !validateDeprecatedVar_cases, Hex.
  - now rewrite !validateRemovedVar_cases, Hex.
Qed.

(** The violations depend on the collection through the names that exist
    in it, and on nothing else. *)
Lemma validations_ext validateVar ledger collection collection' inputFile :
  isLedgerValidator validateVar ->
  (forall name, existsInCollection collection name
                = existsInCollection collection' name) ->
  validations validateVar ledger collection inputFile
  = validations validateVar ledger collection' inputFile.
Proof.
  intros Hvv Hex. rewrite !validations_flat_map.
  apply flat_map_ext. intros entry. unfold entryErrors.
  rewrite (validator_ext validateVar collection collection' inputFile (fst entry) Hvv Hex).
  f_equal. apply flat_map_ext. intros t.
  now apply checkReplacementVar_ext.
Qed.

Lemma existsInCollection_permutation collection collection' name :
  ModeCollection.prefix collection = ModeCollection.prefix collection' ->
  Permutation (ModeCollection.modes collection) (ModeCollection.modes collection') ->
  existsInCollection collection name = existsInCollection collection' name.
Proof.
  intros Hprefix Hperm.
  assert (H : forall c c',
             ModeCollection.prefix c = ModeCollection.prefix c' ->
             Permutation (ModeCollection.modes c) (ModeCollection.modes c') ->
             existsInCollection c name = true -> existsInCollection c' name = true).
  { intros c c' Hp Hm. unfold existsInCollection. rewrite !existsb_exists, Hp.
    intros (vars & Hin & Hget). exists vars. split; [|assumption].
    apply in_map_iff in Hin as (entry & <- & Hin). apply in_map.
    now apply (Permutation_in entry Hm). }
  destruct (existsInCollection collection name) eqn:E.
  - symmetry. now apply (H collection collection').
  - destruct (existsInCollection collection' name) eqn:E'; [|reflexivity].
    rewrite <- E. apply (H collection' collection); try assumption.
    + now symmetry.
    + now apply Permutation_sym.
Qed.

Lemma existsInCollection_no_modes collection name :
  ModeCollection.modes collection = [] -> existsInCollection collection name = false.
Proof. unfold existsInCollection. now intros ->. Qed.
End Dependence.

(** X5. The order in which the modes were added to the Mode Collection does
    not change the verdict: two collections with the same prefix and the
    same modes in any order give the same violations, in either mode. *)
Theorem mode_order_irrelevant
    (validateVar : string -> ModeCollection.t -> string -> list Build.message)
    (ledger : Build.replacementMap) (collection collection' : ModeCollection.t)
    (inputFile : string) :
  Ledger.isLedgerValidator validateVar ->
  ModeCollection.prefix collection = ModeCollection.prefix collection' ->
  Permutation (ModeCollection.modes collection) (ModeCollection.modes collection') ->
  Build.validations validateVar ledger collection inputFile
  = Build.validations validateVar ledger collection' inputFile.
Proof.
  intros Hvv Hprefix Hperm. apply validations_ext; [assumption|].
  intros name. now apply existsInCollection_permutation.
Qed.

Lemma mode_order_irrelevant_witness :
  let ledger := [("fg.default", JString "fg.old")] in
  Ledger.isLedgerValidator Build.validateDeprecatedVar
  /\ ModeCollection.prefix Sample.colors = ModeCollection.prefix Fixtures.colorsReversed
  /\ Permutation (ModeCollection.modes Sample.colors)
       (ModeCollection.modes Fixtures.colorsReversed)
  /\ Build.validations Build.validateDeprecatedVar ledger Sample.colors Sample.inputFile
     = Build.validations Build.validateDeprecatedVar ledger Fixtures.colorsReversed
         Sample.inputFile.
Proof.
  intros ledger.
  assert (H1 : Ledger.isLedgerValidator Build.validateDeprecatedVar) by (now left).
  assert (H2 : ModeCollection.prefix Sample.colors
               = ModeCollection.prefix Fixtures.colorsReversed) by reflexivity.
  assert (H3 : Permutation (ModeCollection.modes Sample.colors)
                 (ModeCollection.modes Fixtures.colorsReversed)) by apply perm_swap.
  split; [exact H1 | split; [exact H2 | split; [exact H3|]]].
  exact (mode_order_irrelevant Build.validateDeprecatedVar ledger Sample.colors
           Fixtures.colorsReversed Sample.inputFile H1 H2 H3).
Defined.

(** X6. Over a Mode Collection without modes (no index file, or every mode
    skipped) no name exists: in deprecated mode only the empty ledger is
    accepted, and in removed mode a ledger is accepted exactly when no entry
    has a replacement target. *)
Theorem no_modes_no_names
    (ledger : Build.replacementMap) (collection : ModeCollection.t)
    (inputFile : string) :
  ModeCollection.modes collection = [] ->
  (Build.validations Build.validateDeprecatedVar ledger collection inputFile = []
   <-> ledger = [])
  /\ (Build.validations Build.validateRemovedVar ledger collection inputFile = []
      <-> forall entry, In entry ledger -> Ledger.replacementVars (snd entry) = []).
Proof.
  intros Hmodes.
  assert (Hex : forall name, Build.existsInCollection collection name = false)
    by (intros name; now apply existsInCollection_no_modes).
  split; rewrite validations_nil; split.
  - intros H. destruct ledger as [|entry entries]; [reflexivity|].
    destruct (H entry (or_introl eq_refl)) as [Hvar _].
    rewrite validateDeprecatedVar_cases, Hex in Hvar. discriminate Hvar.
  - intros -> entry [].
  - intros H entry Hin. destruct (H entry Hin) as [_ Htargets].
    destruct (Ledger.replacementVars (snd entry)) as [|t ts]; [reflexivity|].
    destruct (Htargets t (or_introl eq_refl)) as (s & _ & Hs & _).
    rewrite Hex in Hs. discriminate Hs.
  - intros H entry Hin. split.
    + now rewrite validateRemovedVar_cases, Hex.
    + rewrite (H entry Hin). intros t [].
Qed.

Lemma no_modes_no_names_witness :
  ModeCollection.modes Fixtures.bare = []
  /\ Build.validations Build.validateRemovedVar
       [("fg.old", JNull); ("fg.older", JArray [])] Fixtures.bare Sample.inputFile = [].
Proof.
  split; [reflexivity|].
  apply (proj2 (no_modes_no_names [("fg.old", JNull); ("fg.older", JArray [])]
                  Fixtures.bare Sample.inputFile eq_refl)).
  intros entry [<-|[<-|[]]]; reflexivity.
Defined.

(** ** The shape of a replacement *)

(** X7. Only the targets of a replacement count: writing a single
    replacement as a string or as an array of one element, and no
    replacement as [null] or as the empty array, gives the same violations.
    A ledger and the ledger with every replacement turned into the array of
    its targets are validated alike. *)
Theorem replacement_shape_irrelevant
    (validateVar : string -> ModeCollection.t -> string -> list Build.message)
    (ledger : Build.replacementMap) (collection : ModeCollection.t)
    (inputFile : string) :
  Build.validations validateVar
    (map (fun entry => (fst entry, Script.asArray (snd entry))) ledger)
    collection inputFile
  = Build.validations validateVar ledger collection inputFile.
Proof.
  rewrite !validations_flat_map, flat_map_concat_map, map_map,
    <- flat_map_concat_map.
  apply flat_map_ext. intros entry. unfold Ledger.entryErrors. simpl.
  f_equal. apply flat_map_ext. intros t.
  apply checkReplacementVar_ext; [|reflexivity].
  unfold OrderedMap.keys. rewrite map_map. reflexivity.
Qed.

(** ** [PRIMER_SKIP] *)

Section Splitting.
Variable sep : ascii.

Lemma occurs_app (a b : string) :
  occurs sep (a ++ b) = occurs sep a || occurs sep b.
Proof.
  induction a as [|c a IH]; simpl; [reflexivity|].
  now rewrite IH, orb_assoc.
Qed.

Lemma split_free (s : string) : occurs sep s = false -> split sep s = [s].
Proof.
  induction s as [|c s IH]; simpl; [reflexivity|].
  intros [Hc Hs]%orb_false_iff. rewrite Hc, (IH Hs). reflexivity.
Qed.

Lemma split_app_sep (s t : string) :
  occurs sep s = false ->
  split sep (s ++ String sep t) = s :: split sep t.
Proof.
  induction s as [|c s IH]; simpl.
  - intros _. now rewrite Ascii.eqb_refl.
  - intros [Hc Hs]%orb_false_iff. rewrite Hc, (IH Hs). reflexivity.
Qed.

(** Splitting what was joined gives the items back. *)
Lemma split_concat (item : string) (items : list string) :
  Forall (fun s => occurs sep s = false) (item :: items) ->
  split sep (String.concat (String sep EmptyString) (item :: items)) = item :: items.
Proof.
  revert item. induction items as [|next items IH]; intros item Hfree.
  - simpl. apply split_free. now inversion Hfree.
  - inversion Hfree as [|? ? Hitem Hrest]; subst.
    change (String.concat (String sep EmptyString) (item :: next :: items))
      with (item ++ String sep (String.concat (String sep EmptyString) (next :: items)))%string.
    rewrite split_app_sep by assumption. now rewrite IH.
Qed.
End Splitting.

Section Skipping.
Import Script.

Lemma includes_Some (names : list (option string)) (mode : string) :
  includes names mode = true <-> In (Some mode) names.
Proof.
  unfold includes. rewrite existsb_exists. split.
  - intros ([n|] & Hin & Hn); [|discriminate]. apply String.eqb_eq in Hn. now subst.
  - intros Hin. exists (Some mode). split; [assumption | apply String.eqb_refl].
Qed.

(** A mode is skipped when a skip names its type and the mode. *)
Lemma skipped_iff (env : option string) (modeType mode : string) :
  skipped env modeType mode = true
  <-> In (mkSkip (Some modeType) (Some mode)) (SKIP env).
Proof.
  unfold skipped, toSkip. rewrite includes_Some, in_map_iff. split.
  - intros ([[t|] n] & Hn & Hin%filter_In); simpl in *; destruct Hin as [Hin Ht];
      [|discriminate]. apply String.eqb_eq in Ht. now subst.
  - intros Hin. exists (mkSkip (Some modeType) (Some mode)). split; [reflexivity|].
    apply filter_In. split; [assumption | apply String.eqb_refl].
Qed.

Lemma plainName_inv (s : string) :
  plainName s = true -> occurs comma s = false /\ occurs slash s = false.
Proof.
  unfold plainName. intros [H1 H2]%andb_prop.
  now apply negb_true_iff in H1, H2.
Qed.

Lemma SKIP_skipText (pair : string * string) (pairs : list (string * string)) :
  (forall p, In p (pair :: pairs) ->
     plainName (fst p) = true /\ plainName (snd p) = true) ->
  SKIP (Some (skipText (pair :: pairs)))
  = map (fun p => mkSkip (Some (fst p)) (Some (snd p))) (pair :: pairs).
Proof.
  intros Hplain.
  assert (Hitem : forall p, In p (pair :: pairs) ->
            occurs comma (fst p ++ "/" ++ snd p) = false
            /\ split slash (fst p ++ "/" ++ snd p) = [fst p; snd p]).
  { intros p Hp.
    destruct (Hplain p Hp) as [[Ht Ht']%plainName_inv [Hm Hm']%plainName_inv].
    split.
    - rewrite !occurs_app, Ht, Hm. reflexivity.
    - change (fst p ++ "/" ++ snd p)%string with (fst p ++ String slash (snd p))%string.
      rewrite (split_app_sep slash) by assumption.
      now rewrite (split_free slash) by assumption. }
  unfold SKIP, skipText. cbn [map]. rewrite (split_concat comma).
  - cbn [map]. f_equal.
    + now rewrite (proj2 (Hitem pair (or_introl eq_refl))).
    + rewrite map_map. apply map_ext_in. intros p Hp.
      now rewrite (proj2 (Hitem p (or_intror Hp))).
  - constructor; [apply (Hitem pair); now left|].
    apply Forall_forall. intros s (p & <- & Hp)%in_map_iff.
    apply (Hitem p). now right.
Qed.

Lemma skipped_unset (env : option string) (modeType mode : string) :
  env = None \/ env = Some EmptyString -> skipped env modeType mode = false.
Proof.
  intros [-> | ->]; unfold skipped, toSkip; simpl; now destruct modeType.
Qed.
End Skipping.

(** X8. [PRIMER_SKIP] written as comma-separated [type/mode] items, with
    names free of commas and slashes, skips exactly the modes it lists: a
    mode of a type is passed over when its pair is among the items, and
    only then. *)
Theorem skip_text_round_trip
    (pairs : list (string * string)) (modeType mode : string) :
  (forall p, In p pairs ->
     Script.plainName (fst p) = true /\ Script.plainName (snd p) = true) ->
  Script.skipped (Some (Script.skipText pairs)) modeType mode = true
  <-> In (modeType, mode) pairs.
Proof.
  intros Hplain. destruct pairs as [|pair pairs].
  - rewrite (skipped_unset (Some (Script.skipText [])) modeType mode) by (now right).
    simpl. split; [discriminate | tauto].
  - rewrite skipped_iff, SKIP_skipText by assumption.
    rewrite in_map_iff. split.
    + intros ([t m] & [= <- <-] & Hin). assumption.
    + intros Hin. now exists (modeType, mode).
Qed.

Lemma skip_text_round_trip_witness :
  let pairs := [("colors", "dark"); ("spacing", "compact")] in
  (forall p, In p pairs ->
     Script.plainName (fst p) = true /\ Script.plainName (snd p) = true)
  /\ Script.skipText pairs = "colors/dark,spacing/compact"
  /\ Script.skipped (Some "colors/dark,spacing/compact") "spacing" "compact" = true.
Proof.
  intros pairs.
  assert (H : forall p, In p pairs ->
                Script.plainName (fst p) = true /\ Script.plainName (snd p) = true)
    by (intros p [<-|[<-|[]]]; split; reflexivity).
  split; [exact H | split; [reflexivity|]].
  apply (proj2 (skip_text_round_trip pairs "spacing" "compact" H)).
  simpl. tauto.
Defined.

(** ** [getModeCollectionForType] *)

Section Collecting.
Variable trim : string -> string.
Variable newVariableCollection : string -> string -> VariableCollection.t.
Variable addFromObject :
  list (string * token) -> VariableCollection.t ->
  VariableCollection.error + VariableCollection.t.
Variable add :
  string -> VariableCollection.t -> ModeCollection.t -> ModeCollection.t.
Variable finalize : ModeCollection.t -> ModeCollection.t.

Lemma addModes_filter prefix toSkip modes : forall collection,
  Script.addModes newVariableCollection addFromObject add prefix toSkip modes collection
  = Script.addModes newVariableCollection addFromObject add prefix []
      (filter (fun entry => negb (Script.includes toSkip (fst entry))) modes)
      collection.
Proof.
  induction modes as [|[mode tokens] rest IH]; intros collection; simpl;
    [reflexivity|].
  destruct (Script.includes toSkip mode); simpl; [apply IH|].
  destruct (addFromObject tokens (newVariableCollection mode prefix)); [reflexivity|].
  apply IH.
Qed.

Lemma filter_all {A : Type} (p : A -> bool) (l : list A) :
  (forall x, In x l -> p x = true) -> filter p l = l.
Proof.
  induction l as [|x l IH]; simpl; intros H; [reflexivity|].
  rewrite (H x) by now left. f_equal. apply IH. intros y Hy. apply H. now right.
Qed.
End Collecting.

(** X9. Skipping a mode is the same as its absence from [index.ts]: the
    Mode Collection of a type, or the error the call ends with, is the one
    of the index without the skipped modes and with nothing to skip. So a
    skipped mode is never flattened, and a reference it leaves undefined
    cannot fail the call. *)
Theorem skipping_is_filtering
    (trim : string -> string)
    (newVariableCollection : string -> string -> VariableCollection.t)
    (addFromObject :
       list (string * token) -> VariableCollection.t ->
       VariableCollection.error + VariableCollection.t)
    (add : string -> VariableCollection.t -> ModeCollection.t -> ModeCollection.t)
    (finalize : ModeCollection.t -> ModeCollection.t)
    (modeType : string) (toSkip : list (option string))
    (prefixFile : option string) (modes : list (string * list (string * token))) :
  Script.getModeCollectionForType trim newVariableCollection addFromObject add
    finalize modeType toSkip prefixFile (Some modes)
  = Script.getModeCollectionForType trim newVariableCollection addFromObject add
      finalize modeType [] prefixFile
      (Some (filter (fun entry => negb (Script.includes toSkip (fst entry))) modes)).
Proof.
  unfold Script.getModeCollectionForType. now rewrite addModes_filter.
Qed.

(** The sample index has a mode with an undefined reference: the call fails
    on it, and succeeds when that mode is skipped. *)
Example skipped_mode_cannot_fail :
  Script.getModeCollectionForType (fun text => text) VariableCollection.empty
    VariableCollection.addFromObject Fixtures.add (fun collection => collection)
    "colors" (Script.toSkip None "colors") None (Some Fixtures.modes)
  = inl (VariableCollection.UndefinedReference "scale.black" "dark")
  /\ exists collection,
       Script.getModeCollectionForType (fun text => text) VariableCollection.empty
         VariableCollection.addFromObject Fixtures.add (fun collection => collection)
         "colors" (Script.toSkip (Some "colors/dark") "colors") None
         (Some Fixtures.modes)
       = inr collection
       /\ OrderedMap.keys (ModeCollection.modes collection) = ["light"; "dim"].
Proof. split; [reflexivity|]. eexists. split; reflexivity. Qed.

(** X10. With [PRIMER_SKIP] unset or empty no mode of any type is skipped,
    and [getModeCollectionForType] goes through every mode of the index. *)
Theorem unset_skip_keeps_every_mode
    (trim : string -> string)
    (newVariableCollection : string -> string -> VariableCollection.t)
    (addFromObject :
       list (string * token) -> VariableCollection.t ->
       VariableCollection.error + VariableCollection.t)
    (add : string -> VariableCollection.t -> ModeCollection.t -> ModeCollection.t)
    (finalize : ModeCollection.t -> ModeCollection.t)
    (env : option string) (modeType : string)
    (prefixFile : option string)
    (indexFile : option (list (string * list (string * token)))) :
  env = None \/ env = Some EmptyString ->
  (forall mode, Script.skipped env modeType mode = false)
  /\ Script.getModeCollectionForType trim newVariableCollection addFromObject add
       finalize modeType (Script.toSkip env modeType) prefixFile indexFile
     = Script.getModeCollectionForType trim newVariableCollection addFromObject add
         finalize modeType [] prefixFile indexFile.
Proof.
  intros Henv.
  assert (Hnone : forall mode, Script.skipped env modeType mode = false)
    by (intros mode; now apply skipped_unset).
  split; [exact Hnone|].
  destruct indexFile as [modes|]; [|reflexivity].
  unfold Script.getModeCollectionForType. rewrite addModes_filter, filter_all.
  - reflexivity.
  - intros entry _. apply negb_true_iff, (Hnone (fst entry)).
Qed.

Lemma unset_skip_keeps_every_mode_witness :
  (@None string = None \/ @None string = Some EmptyString)
  /\ Script.getModeCollectionForType (fun text => text) VariableCollection.empty
       VariableCollection.addFromObject Fixtures.add (fun collection => collection)
       "colors" (Script.toSkip None "colors") None (Some Fixtures.modes)
     = Script.getModeCollectionForType (fun text => text) VariableCollection.empty
         VariableCollection.addFromObject Fixtures.add (fun collection => collection)
         "colors" [] None (Some Fixtures.modes).
Proof.
  assert (H : @None string = None \/ @None string = Some EmptyString) by (now left).
  split; [exact H|].
  exact (proj2 (unset_skip_keeps_every_mode (fun text => text)
                  VariableCollection.empty VariableCollection.addFromObject
                  Fixtures.add (fun collection => collection)
                  None "colors" None (Some Fixtures.modes) H)).
Defined.

(** ** The emitted texts *)

Section Texts.

End Texts.




(** ** Edges of the ledger *)



Section LedgerOrder.
Import Build Ledger.

Lemma includes_permutation (s : string) (keys keys' : list string) :
  Permutation keys keys' ->
  existsb (String.eqb s) keys = existsb (String.eqb s) keys'.
Proof.
  intros Hperm.
  destruct (existsb (String.eqb s) keys) eqn:E;
    destruct (existsb (String.eqb s) keys') eqn:E'; try reflexivity; exfalso.
  - apply includes_In in E. apply (Permutation_in s Hperm), includes_In in E.
    congruence.
  - apply includes_In in E'.
    apply (Permutation_in s (Permutation_sym Hperm)), includes_In in E'.
    congruence.
Qed.

Lemma entryErrors_permutation validateVar ledger ledger' collection inputFile entry :
  Permutation ledger ledger' ->
  entryErrors validateVar ledger collection inputFile entry
  = entryErrors validateVar ledger' collection inputFile entry.
Proof.
  intros Hperm. unfold entryErrors. f_equal. apply flat_map_ext. intros t.
  destruct t; try reflexivity.
  rewrite !checkReplacementVar_string.
  now rewrite (includes_permutation s (OrderedMap.keys ledger) (OrderedMap.keys ledger'))
    by (apply Permutation_map; exact Hperm).
Qed.
End LedgerOrder.

(** X14. The order of the entries of a ledger changes the order of the
    violations and nothing else: the ledger in another order gives the same
    violations rearranged, so it is accepted or rejected alike. *)
Theorem ledger_order_irrelevant
    (validateVar : string -> ModeCollection.t -> string -> list Build.message)
    (ledger ledger' : Build.replacementMap) (collection : ModeCollection.t)
    (inputFile : string) :
  Permutation ledger ledger' ->
  Permutation (Build.validations validateVar ledger collection inputFile)
              (Build.validations validateVar ledger' collection inputFile)
  /\ (Build.validations validateVar ledger collection inputFile = []
      <-> Build.validations validateVar ledger' collection inputFile = []).
Proof.
  intros Hperm.
  assert (H : Permutation (Build.validations validateVar ledger collection inputFile)
                (Build.validations validateVar ledger' collection inputFile)).
  { rewrite !validations_flat_map.
    rewrite (flat_map_ext _ _
               (fun entry =>
                  entryErrors_permutation validateVar ledger ledger' collection
                    inputFile entry Hperm)).
    now apply Permutation_flat_map. }
  split; [exact H|]. split; intros Hnil; rewrite Hnil in H.
  - now apply Permutation_nil.
  - now apply Permutation_nil, Permutation_sym.
Qed.

Lemma ledger_order_irrelevant_witness :
  let ledger := [("fg.old", JNull); ("scale.black", JString "fg.old")] in
  let ledger' := [("scale.black", JString "fg.old"); ("fg.old", JNull)] in
  Permutation ledger ledger'
  /\ Permutation
       (Build.validations Build.validateDeprecatedVar ledger Sample.colors
          Sample.inputFile)
       (Build.validations Build.validateDeprecatedVar ledger' Sample.colors
          Sample.inputFile).
Proof.
  intros ledger ledger'.
  assert (H : Permutation ledger ledger') by apply perm_swap.
  split; [exact H|].
  exact (proj1 (ledger_order_irrelevant Build.validateDeprecatedVar ledger ledger'
                  Sample.colors Sample.inputFile H)).
Defined.
